(** * Siege game: a shallow embedding of [game.js] and its specification

    The program is a single JavaScript closure holding the game state
    (level, shot counter, power multiplier, aim gesture, projectile,
    blocks).  It is embedded here as pure functions over an explicit
    [state] record.

    Numbers.  JavaScript numbers that are integers by construction
    (level index, counters, results of [Math.floor]) are in [Z]; every
    other number is an exact rational in [Q], so rounding of IEEE doubles
    is not part of the model.  The linear congruential generator is exact
    in both: [1664525 * s + 1013904223] stays below [2^53] for a 32-bit
    [s], and dividing a 32-bit integer by [2^32] is exact.

    The display size ([window.innerWidth], [window.innerHeight]) is an
    external input, and so are the library functions [Math.hypot],
    [Math.atan2], [Math.cos] and [Math.sin], which have no rational
    counterpart: the embedding takes them as parameters. *)

From Stdlib Require Import String ZArith QArith Qround Qminmax Qabs Lqa Lia Bool List.
From ExtLib Require Import Structures.Monad Structures.MonadState Data.Monads.StateMonad.
Import ListNotations MonadNotation.
Local Open Scope monad_scope.
Local Open Scope Q_scope.

(** Integer-valued numbers are read as rationals where the code mixes
    them. *)
#[local] Coercion inject_Z : Z >-> Q.

(** ** Numeric helpers *)

Definition Qltb (a b : Q) : bool := negb (Qle_bool b a).
Definition Qgtb (a b : Q) : bool := Qltb b a.
Definition Qgeb (a b : Q) : bool := Qle_bool b a.

Infix "<?" := Qltb (at level 70, no associativity) : Q_scope.
Infix ">?" := Qgtb (at level 70, no associativity) : Q_scope.
Infix "<=?" := Qle_bool (at level 70, no associativity) : Q_scope.
Infix ">=?" := Qgeb (at level 70, no associativity) : Q_scope.

(** [const clamp = (v, a, b) => Math.max(a, Math.min(b, v))] *)
Definition clamp (v a b : Q) : Q := Qmax a (Qmin b v).

(** The same function on integer-valued numbers. *)
Definition clampZ (v a b : Z) : Z := Z.max a (Z.min b v).

(** [Math.floor] and [Math.round] (round half up). *)
Definition floor (v : Q) : Z := Qfloor v.
Definition round (v : Q) : Z := Qfloor (v + 0.5).

(** The functions of the JavaScript [Math] object that leave the
    rationals. *)
Class MathLib : Type := {
  hypot : Q -> Q -> Q;
  atan2 : Q -> Q -> Q;
  cos : Q -> Q;
  sin : Q -> Q
}.

(** [const len = (x, y) => Math.hypot(x, y)] *)
Definition len {math : MathLib} (x y : Q) : Q := hypot x y.

(** ** World settings *)

Definition G : Q := 1200.
Definition AIR : Q := 0.998.
Definition RESTITUTION : Q := 0.35.
Definition FRICTION : Q := 0.84.
Definition DT_MAX : Q := 1 / 30.

(** ** Materials *)

(** The keys of the [materials] object, in the order of the literal. *)
Inductive material : Type := wood | stone | metal | glass.

Record matinfo : Type := { hp : Q; color : string; score : Q }.

(** [materials[mat]] *)
Definition materials (mat : material) : matinfo :=
  match mat with
  | wood => {| hp := 90; color := "#b87a4b"; score := 1.0 |}
  | stone => {| hp := 150; color := "#8b93a1"; score := 1.3 |}
  | metal => {| hp := 220; color := "#6b7a8f"; score := 1.6 |}
  | glass => {| hp := 45; color := "#7ad7ff"; score := 0.8 |}
  end.

(** [Object.keys(materials)] *)
Definition catalog : list material := [wood; stone; metal; glass].

(** ** Blocks, projectile, game state *)

Module Block.
Record t : Type := mk {
  x : Q; y : Q; w : Q; h : Q;
  hp : Q; maxHp : Q;
  mat : material;
  alive : bool
}.
End Block.

Module Ball.
Record t : Type := mk {
  x : Q; y : Q; vx : Q; vy : Q;
  r : Q; damage : Q;
  alive : bool;
  traveled : Q
}.
End Ball.

Record point : Type := { px : Q; py : Q }.

Record state : Type := mk_state {
  level : Z;
  shots : Z;
  powerMult : Q;
  aiming : bool;
  aimStart : point;
  aimNow : point;
  ball : option Ball.t;
  blocks : list Block.t;
  totalBlocks : Z;
  last : Q
}.

(** ** Level generator *)

(** What the generator threads through its calls: the state [s] of the
    closure returned by [rand], and the [blocks] array being filled. *)
Record gen : Type := { s : Z; g_blocks : list Block.t }.

Definition Gen : Type -> Type := StateMonad.state gen.

(** [rand(seed)]: [let s = seed >>> 0]. *)
Definition rand (seed : Z) : Z := seed mod 4294967296.

(** One call of the closure returned by [rand]:
    [(s = (1664525 * s + 1013904223) >>> 0) / 4294967296]. *)
Definition r : Gen Q :=
  g <- get ;;
  let s' := ((1664525 * s g + 1013904223) mod 4294967296)%Z in
  put {| s := s'; g_blocks := g_blocks g |} ;;
  ret (inject_Z s' / 4294967296).

(** [addBlock(x, y, w, h, mat)]: push a fresh block at full hit points. *)
Definition addBlock (x y w h : Q) (mat : material) : Gen unit :=
  let m := materials mat in
  g <- get ;;
  put {| s := s g;
         g_blocks := g_blocks g ++
           [Block.mk x y w h (hp m) (hp m) mat true] |}.

(** [for (let i = lo; i < hi; i++) body(i)], as [count] iterations from
    [i]. *)
Fixpoint for_count (count : nat) (i : Z) (body : Z -> Gen unit) : Gen unit :=
  match count with
  | O => ret tt
  | S count' => body i ;; for_count count' (i + 1)%Z body
  end.

Definition for_lt (lo hi : Z) (body : Z -> Gen unit) : Gen unit :=
  for_count (Z.to_nat (hi - lo)) lo body.

Inductive theme : Type := castle | city | towers.

(** [Math.min(...topYs)]; the array is never empty where it is used. *)
Definition minimum (l : list Q) : option Q :=
  match l with
  | [] => None
  | q :: l' => Some (fold_left Qmin l' q)
  end.

Section Generator.

Variables innerWidth innerHeight : Q.

Definition groundY : Q := innerHeight * 0.83.

Definition cannonPos : point :=
  {| px := innerWidth * 0.14; py := groundY - 12 |}.

(** The constants of [makeLevel(n)]. *)
Variable n : Z.

Definition gy : Q := groundY.
Definition baseX : Q := innerWidth * 0.55.
Definition baseW : Q := innerWidth * 0.38.

Definition pickTheme (themeRoll : Q) : theme :=
  if themeRoll <? 0.33 then castle
  else if themeRoll <? 0.66 then city
  else towers.

Definition floors : Z := clampZ (3 + floor (n * 0.35)) 3 9.
Definition density : Q := clamp (0.55 + n * 0.02) 0.55 0.85.
Definition bw : Z := clampZ (44 - floor (n * 0.4)) 26 44.
Definition bh : Z := clampZ (28 - floor (n * 0.25)) 18 28.

Definition pickMat : Gen material :=
  let t := clamp (n / 18) 0 1 in
  p <- r ;;
  if p <? 0.10 then ret glass
  else if p <? 0.58 - 0.18 * t then ret wood
  else if p <? 0.90 - 0.10 * t then ret stone
  else ret metal.

(** *** Theme "city" *)

Definition cityCell (bx : Q) (y x : Z) : Gen unit :=
  p <- r ;;
  if p >? density then ret tt
  else
    mat <- pickMat ;;
    addBlock (bx + x * (bw + 2)) (gy - (y + 1) * (bh + 2)) bw bh mat.

Definition cityBuilding (buildings b : Z) : Gen unit :=
  p1 <- r ;;
  let bx := baseX + (b / buildings) * baseW + (p1 * 20 - 10) in
  p2 <- r ;;
  let widthBlocks := (3 + floor (p2 * 4))%Z in
  p3 <- r ;;
  let heightBlocks := clampZ (2 + floor (p3 * floors)) 2 floors in
  for_lt 0 heightBlocks (fun y =>
    for_lt 0 widthBlocks (fun x => cityCell bx y x)).

Definition cityTheme : Gen unit :=
  p <- r ;;
  let buildings := (3 + floor (p * 3))%Z in
  for_lt 0 buildings (cityBuilding buildings).

(** *** Theme "towers" *)

Definition towerCell (tx : Q) (y x : Z) : Gen unit :=
  p <- r ;;
  if p >? density + 0.08 then ret tt
  else
    mat <- pickMat ;;
    addBlock (tx + x * (bw + 2)) (gy - (y + 1) * (bh + 2)) bw bh mat.

(** The top of a tower of [heightBlocks] rows, as pushed on [topYs]. *)
Definition towerTop (heightBlocks : Z) : Q := gy - heightBlocks * (bh + 2).

(** One iteration of the tower loop; returns [heightBlocks]. *)
Definition tower (gap : Q) (tIdx : Z) : Gen Z :=
  p1 <- r ;;
  let tx := baseX + gap * (tIdx + 1) + (p1 * 18 - 9) in
  p2 <- r ;;
  let heightBlocks := clampZ (4 + floor (p2 * floors)) 4 floors in
  for_lt 0 heightBlocks (fun y =>
    for_lt 0 2 (fun x => towerCell tx y x)) ;;
  ret heightBlocks.

(** The tower loop; returns the heights in the order of [topYs]. *)
Fixpoint towerLoop (count : nat) (gap : Q) (tIdx : Z) : Gen (list Z) :=
  match count with
  | O => ret []
  | S count' =>
      hb <- tower gap tIdx ;;
      hbs <- towerLoop count' gap (tIdx + 1)%Z ;;
      ret (hb :: hbs)
  end.

Definition bridgeCell (bridgeX bridgeY : Q) (i : Z) : Gen unit :=
  p <- r ;;
  if p >? 0.75 then ret tt
  else addBlock (bridgeX + i * (bw * 0.78)) bridgeY (bw * 0.72) (bh * 0.65) wood.

Definition bridge (gap : Q) (topYs : list Q) : Gen unit :=
  match minimum topYs with
  | None => ret tt
  | Some top =>
      let bridgeY := top - (bh + 8) in
      let bridgeX := baseX + gap * 1.1 in
      p <- r ;;
      let bridgeBlocks := (9 + floor (p * 5))%Z in
      for_lt 0 bridgeBlocks (bridgeCell bridgeX bridgeY)
  end.

Definition towersTheme : Gen unit :=
  p <- r ;;
  let towersN := (2 + floor (p * 2))%Z in
  let gap := baseW / (towersN + 1) in
  hbs <- towerLoop (Z.to_nat towersN) gap 0 ;;
  let topYs := map towerTop hbs in
  if (towersN >=? 2)%Z then bridge gap topYs else ret tt.

(** *** Theme "castle" *)

Definition wallHeight : Z := clampZ (3 + floor (n * 0.18)) 3 floors.

Definition wallCell (startX : Q) (y x : Z) : Gen unit :=
  p <- r ;;
  if p >? density then ret tt
  else
    mat <- (if (y =? wallHeight - 1)%Z then ret stone else pickMat) ;;
    addBlock (startX + x * (bw + 2)) (gy - (y + 1) * (bh + 2)) bw bh mat.

Definition wallRow (startX : Q) (wallWidthBlocks y : Z) : Gen unit :=
  for_lt 0 wallWidthBlocks (wallCell startX y).

Definition castleTowerCell (tx : Q) (y x : Z) : Gen unit :=
  p <- r ;;
  if p >? density + 0.05 then ret tt
  else addBlock (tx + x * (bw + 2)) (gy - (y + 1) * (bh + 2)) bw bh stone.

Definition battlement (tx : Q) (towerH i : Z) : Gen unit :=
  p <- r ;;
  if p >? 0.65 then ret tt
  else addBlock (tx + i * (bw + 2)) (gy - (towerH + 1) * (bh + 2))
         bw (bh * 0.7) wood.

Definition towerW : Z := 3.

Definition castleTower (towerH : Z) (tx : Q) : Gen unit :=
  for_lt 0 towerH (fun y =>
    for_lt 0 towerW (fun x => castleTowerCell tx y x)) ;;
  for_lt 0 towerW (battlement tx towerH).

Definition castleTowers (startX : Q) (wallWidthBlocks : Z) : Gen unit :=
  p <- r ;;
  let towerH := (wallHeight + 2 + floor (p * 3))%Z in
  let tower1X := startX - (bw + 2) * 1.2 in
  let tower2X := startX + (bw + 2) * (wallWidthBlocks - towerW + 0.2) in
  castleTower towerH tower1X ;;
  castleTower towerH tower2X.

Definition castleTheme : Gen unit :=
  p1 <- r ;;
  let wallWidthBlocks := (10 + floor (p1 * 6))%Z in
  p2 <- r ;;
  let startX := baseX + (p2 * 20 - 10) in
  for_lt 0 wallHeight (wallRow startX wallWidthBlocks) ;;
  castleTowers startX wallWidthBlocks.

(** *** Decoration and the whole level *)

Definition decoBlock (i : Z) : Gen unit :=
  p <- r ;;
  if p >? 0.55 then ret tt
  else
    p1 <- r ;;
    let x := baseX + p1 * baseW in
    p2 <- r ;;
    let y := gy - (1 + floor (p2 * (floors + 1)%Z))%Z * (bh + 2) in
    p3 <- r ;;
    addBlock x y (bw * 0.75) (bh * 0.75) (if p3 <? 0.5 then glass else wood).

Definition decoPass : Gen unit :=
  p <- r ;;
  let deco := (6 + floor (p * 10))%Z in
  for_lt 0 deco decoBlock.

Definition layout (th : theme) : Gen unit :=
  match th with
  | city => cityTheme
  | towers => towersTheme
  | castle => castleTheme
  end.

(** The body of [makeLevel(n)] from [const r = rand(...)] to the end
    of the decoration pass; returns the theme. *)
Definition generate : Gen theme :=
  themeRoll <- r ;;
  let th := pickTheme themeRoll in
  layout th ;;
  decoPass ;;
  ret th.

Definition gen0 : gen := {| s := rand (1337 + n * 999); g_blocks := [] |}.

Definition themeOf : theme := evalState generate gen0.
Definition genBlocks : list Block.t := g_blocks (execState generate gen0).

(** [makeLevel(n)]: the assignments to the game state. *)
Definition makeLevel (st : state) : state :=
  {| level := level st;
     shots := 0;
     powerMult := 1.0 + (n - 1) * 0.08;
     aiming := aiming st;
     aimStart := aimStart st;
     aimNow := aimNow st;
     ball := None;
     blocks := genBlocks;
     totalBlocks := Z.of_nat (length genBlocks);
     last := last st |}.

End Generator.

(** ** Heads-up display *)

(** What [syncHud] writes: level, shots, power multiplier (shown with two
    decimals) and the destroyed percentage. *)
Record hud : Type := {
  elLevel : Z;
  elShots : Z;
  elPower : Q;
  elDestroyed : Z
}.

(** [blocks.filter(b => b.alive).length] *)
Definition aliveCount (bs : list Block.t) : Z :=
  Z.of_nat (length (filter Block.alive bs)).

Definition syncHud (st : state) : hud :=
  let destroyed :=
    if (totalBlocks st =? 0)%Z then 0%Z
    else round (100 * (1 - aliveCount (blocks st) / totalBlocks st)) in
  {| elLevel := level st;
     elShots := shots st;
     elPower := powerMult st;
     elDestroyed := destroyed |}.

(** ** Collision: circle against axis-aligned rectangle *)

Record collision : Type := {
  hit : bool;
  dx : Q; dy : Q;
  closestX : Q; closestY : Q
}.

Definition circleRectCollision (cx cy r : Q) (rect : Block.t) : collision :=
  let closestX := clamp cx (Block.x rect) (Block.x rect + Block.w rect) in
  let closestY := clamp cy (Block.y rect) (Block.y rect + Block.h rect) in
  let dx := cx - closestX in
  let dy := cy - closestY in
  let d2 := dx * dx + dy * dy in
  {| hit := d2 <=? r * r;
     dx := dx; dy := dy; closestX := closestX; closestY := closestY |}.

(** ** Launching, input, simulation step *)

Inductive event : Type :=
| Down (p : point)      (* touchstart, mousedown *)
| Move (p : point)      (* touchmove, mousemove *)
| Up                    (* touchend, mouseup *)
| Restart               (* click on the restart button *)
| Tick (now : Q).       (* animation frame *)

Section Game.

Context {math : MathLib}.
Variables innerWidth innerHeight : Q.

(** [fire(fromX, fromY, toX, toY)] *)
Definition fire (fromX fromY toX toY : Q) (st : state) : state :=
  let dx := fromX - toX in
  let dy := fromY - toY in
  let drag := clamp (len dx dy) 0 160 in
  let angle := atan2 dy dx in
  let base := 700 in
  let speed := (base + drag * 6) * powerMult st in
  let vx := cos angle * speed in
  let vy := sin angle * speed in
  let radius := clamp (14 + level st * 0.25) 14 22 in
  let damage := (120 + drag * 1.4) * powerMult st in
  {| level := level st;
     shots := shots st + 1;
     powerMult := powerMult st;
     aiming := aiming st;
     aimStart := aimStart st;
     aimNow := aimNow st;
     ball := Some (Ball.mk fromX fromY vx vy radius damage true 0);
     blocks := blocks st;
     totalBlocks := totalBlocks st;
     last := last st |}.

Definition set_aim (a : bool) (start now : point) (st : state) : state :=
  {| level := level st; shots := shots st; powerMult := powerMult st;
     aiming := a; aimStart := start; aimNow := now;
     ball := ball st; blocks := blocks st;
     totalBlocks := totalBlocks st; last := last st |}.

(** [onDown(e)], with [p = getPoint(e)]. *)
Definition onDown (p : point) (st : state) : state := set_aim true p p st.

(** [onMove(e)] *)
Definition onMove (p : point) (st : state) : state :=
  if negb (aiming st) then st else set_aim (aiming st) (aimStart st) p st.

(** [!ball || !ball.alive] *)
Definition noActiveBall (st : state) : bool :=
  match ball st with
  | None => true
  | Some b => negb (Ball.alive b)
  end.

(** [onUp(e)] *)
Definition onUp (st : state) : state :=
  if negb (aiming st) then st
  else
    let st1 := set_aim false (aimStart st) (aimNow st) st in
    let c := cannonPos innerWidth innerHeight in
    if noActiveBall st1
    then fire (px c) (py c) (px (aimNow st1)) (py (aimNow st1)) st1
    else st1.

(** *** The phases of [update(dt)] on the projectile *)

(** Integrate *)
Definition integrate (dt : Q) (b : Ball.t) : Ball.t :=
  let vy1 := Ball.vy b + G * dt in
  let vx2 := Ball.vx b * AIR in
  let vy2 := vy1 * AIR in
  let oldX := Ball.x b in
  let oldY := Ball.y b in
  let x' := Ball.x b + vx2 * dt in
  let y' := Ball.y b + vy2 * dt in
  Ball.mk x' y' vx2 vy2 (Ball.r b) (Ball.damage b) (Ball.alive b)
    (Ball.traveled b + len (x' - oldX) (y' - oldY)).

(** Ground collision *)
Definition groundCollision (b : Ball.t) : Ball.t :=
  let gy := groundY innerHeight in
  if Ball.y b + Ball.r b >? gy then
    let vy' := - Ball.vy b * RESTITUTION in
    let vx' := Ball.vx b * FRICTION in
    Ball.mk (Ball.x b) (gy - Ball.r b) vx' vy' (Ball.r b) (Ball.damage b)
      (if (Qabs vy' <? 120) && (Qabs vx' <? 90) then false else Ball.alive b)
      (Ball.traveled b)
  else b.

(** Out of bounds *)
Definition isOutOfBounds (b : Ball.t) : bool :=
  (Ball.x b <? -200) || (Ball.x b >? innerWidth + 200)
  || (Ball.y b >? innerHeight + 300).

Definition outOfBounds (b : Ball.t) : Ball.t :=
  if isOutOfBounds b then
    Ball.mk (Ball.x b) (Ball.y b) (Ball.vx b) (Ball.vy b) (Ball.r b)
      (Ball.damage b) false (Ball.traveled b)
  else b.

(** The projectile as the block loop sees it. *)
Definition moveBall (dt : Q) (b : Ball.t) : Ball.t :=
  outOfBounds (groundCollision (integrate dt b)).

(** *** Collide with blocks *)

(** [ball.damage * (0.35 + clamp(speed / 1200, 0.0, 1.2))] *)
Definition dmgAt (damage speed : Q) : Q :=
  damage * (0.35 + clamp (speed / 1200) 0.0 1.2).

Definition impactSpeed (b : Ball.t) : Q := len (Ball.vx b) (Ball.vy b).

Definition dmg (b : Ball.t) : Q := dmgAt (Ball.damage b) (impactSpeed b).

(** The hit block: [b.hp -= dmg; if (b.hp <= 0) b.alive = false]. *)
Definition damageBlock (bl : Ball.t) (b : Block.t) : Block.t :=
  let hp' := Block.hp b - dmg bl in
  Block.mk (Block.x b) (Block.y b) (Block.w b) (Block.h b)
    hp' (Block.maxHp b) (Block.mat b)
    (if hp' <=? 0 then false else Block.alive b).

(** The bounce response and the energy loss. *)
Definition bounce (bl : Ball.t) (b : Block.t) : Ball.t :=
  let overlapX :=
    Qmin (Qabs (Ball.x bl - Block.x b))
         (Qabs (Ball.x bl - (Block.x b + Block.w b))) in
  let overlapY :=
    Qmin (Qabs (Ball.y bl - Block.y b))
         (Qabs (Ball.y bl - (Block.y b + Block.h b))) in
  let vx1 := if overlapX <? overlapY then - Ball.vx bl * 0.55 else Ball.vx bl in
  let vy1 := if overlapX <? overlapY then Ball.vy bl else - Ball.vy bl * 0.55 in
  Ball.mk (Ball.x bl) (Ball.y bl) (vx1 * 0.92) (vy1 * 0.92) (Ball.r bl)
    (Ball.damage bl) (Ball.alive bl) (Ball.traveled bl).

Definition hits (bl : Ball.t) (b : Block.t) : bool :=
  hit (circleRectCollision (Ball.x bl) (Ball.y bl) (Ball.r bl) b).

(** [for (const b of blocks) { ...; break; }]: dead and missed blocks
    are skipped, the first live block that is hit ends the loop. *)
Fixpoint collideBlocks (bl : Ball.t) (bs : list Block.t)
  : Ball.t * list Block.t :=
  match bs with
  | [] => (bl, [])
  | b :: rest =>
      if negb (Block.alive b) || negb (hits bl b) then
        let (bl', rest') := collideBlocks bl rest in (bl', b :: rest')
      else (bounce bl b, damageBlock bl b :: rest)
  end.

(** *** Win condition *)

(** [totalBlocks ? (1 - aliveCount / totalBlocks) : 1] *)
Definition destroyedPct (bs : list Block.t) (total : Z) : Q :=
  if (total =? 0)%Z then 1 else 1 - aliveCount bs / total.

Definition set_physics (bl : Ball.t) (bs : list Block.t) (st : state) : state :=
  {| level := level st; shots := shots st; powerMult := powerMult st;
     aiming := aiming st; aimStart := aimStart st; aimNow := aimNow st;
     ball := Some bl; blocks := bs;
     totalBlocks := totalBlocks st; last := last st |}.

Definition set_level (l : Z) (st : state) : state :=
  {| level := l; shots := shots st; powerMult := powerMult st;
     aiming := aiming st; aimStart := aimStart st; aimNow := aimNow st;
     ball := ball st; blocks := blocks st;
     totalBlocks := totalBlocks st; last := last st |}.

Definition kill (b : Ball.t) : Ball.t :=
  Ball.mk (Ball.x b) (Ball.y b) (Ball.vx b) (Ball.vy b) (Ball.r b)
    (Ball.damage b) false (Ball.traveled b).

(** The projectile and the blocks after the block loop of a step that
    starts with the live projectile [b]. *)
Definition physics (dt : Q) (b : Ball.t) (st : state) : state :=
  let (bl, bs) := collideBlocks (moveBall dt b) (blocks st) in
  set_physics bl bs st.

(** [destroyedPct >= 0.85] after the block loop. *)
Definition wins (st : state) : bool :=
  destroyedPct (blocks st) (totalBlocks st) >=? 0.85.

(** [ball.alive = false; level += 1; makeLevel(level)] *)
Definition advance (st : state) : state :=
  let st1 :=
    match ball st with
    | Some b => set_physics (kill b) (blocks st) st
    | None => st
    end in
  let st2 := set_level (level st1 + 1) st1 in
  makeLevel innerWidth innerHeight (level st2) st2.

(** [update(dt)] *)
Definition update (dt : Q) (st : state) : state :=
  match ball st with
  | Some b =>
      if Ball.alive b then
        let st1 := physics dt b st in
        if wins st1 then advance st1 else st1
      else st
  | None => st
  end.

Definition set_last (now : Q) (st : state) : state :=
  {| level := level st; shots := shots st; powerMult := powerMult st;
     aiming := aiming st; aimStart := aimStart st; aimNow := aimNow st;
     ball := ball st; blocks := blocks st;
     totalBlocks := totalBlocks st; last := now |}.

(** [tick(now)], without the drawing. *)
Definition tick (now : Q) (st : state) : state :=
  let dt := clamp ((now - last st) / 1000) 0 DT_MAX in
  update dt (set_last now st).

(** *** The program as a transition system *)

Definition handle (e : event) (st : state) : state :=
  match e with
  | Down p => onDown p st
  | Move p => onMove p st
  | Up => onUp st
  | Restart => makeLevel innerWidth innerHeight (level st) st
  | Tick now => tick now st
  end.

(** The state after the top-level code has run: the declarations, then
    [makeLevel(level)]; [t0] is the first [performance.now()]. *)
Definition boot (t0 : Q) : state :=
  let st0 :=
    {| level := 1; shots := 0; powerMult := 1.0;
       aiming := false;
       aimStart := {| px := 0; py := 0 |};
       aimNow := {| px := 0; py := 0 |};
       ball := None; blocks := []; totalBlocks := 0; last := t0 |} in
  makeLevel innerWidth innerHeight (level st0) st0.

Definition run (t0 : Q) (es : list event) : state :=
  fold_left (fun st e => handle e st) es (boot t0).

(** The states of the runs on a display whose size stays the same. *)
Inductive reachable : state -> Prop :=
| reach_boot : forall t0, reachable (boot t0)
| reach_step : forall st e, reachable st -> reachable (handle e st).

End Game.

(** ** Canvas setup *)

(** What [resize] sets: the size of the canvas in device pixels and the
    scale of the drawing transform. *)
Record canvasSize : Type := { width : Z; height : Z; scale : Q }.

(** [resize()]; [devicePixelRatio] is [None] where the browser does not
    define it, and [x || 1] takes 1 for a ratio of zero as well. *)
Definition resize (innerWidth innerHeight : Q) (devicePixelRatio : option Q)
  : canvasSize :=
  let ratio :=
    match devicePixelRatio with
    | Some d => if Qeq_bool d 0 then 1 else d
    | None => 1
    end in
  let dpr := Qmax 1 (Qmin 3 ratio) in
  {| width := floor (innerWidth * dpr);
     height := floor (innerHeight * dpr);
     scale := dpr |}.

(** ** Drawing *)

(** The numbers [draw] computes from the state and hands to the canvas:
    the angle of the barrel, the aim line with its opacity and the pull
    and power shown next to it, the live blocks each with the width of
    its hit point bar, and the projectile. *)
Record aimHint : Type := { strokeAlpha : Q; pull : Z; power : Q }.

Record scene : Type := {
  barrelAngle : Q;
  aimLine : option aimHint;
  blockBars : list (Block.t * Q);
  ballShown : option Ball.t
}.

Section Drawing.

Context {math : MathLib}.
Variables innerWidth innerHeight : Q.

Definition draw (st : state) : scene :=
  let c := cannonPos innerWidth innerHeight in
  let dx := px c - px (aimNow st) in
  let dy := py c - py (aimNow st) in
  {| barrelAngle :=
       if aiming st then clamp (atan2 dy dx) (-2.5) (-0.05) else -0.35;
     aimLine :=
       if aiming st && noActiveBall st then
         let drag := clamp (len dx dy) 0 160 in
         Some {| strokeAlpha := 0.25 + drag / 320;
                 pull := round drag;
                 power := powerMult st |}
       else None;
     blockBars :=
       map (fun b =>
              let hpPct := Block.hp b / Block.maxHp b in
              (b, Block.w b * clamp hpPct 0 1))
           (filter Block.alive (blocks st));
     ballShown :=
       match ball st with
       | Some b => if Ball.alive b then Some b else None
       | None => None
       end |}.

End Drawing.

(** * Vocabulary of the properties *)

(** ** The block loop *)

(** Block [c] at index [i] is the first live block of [bs] that the
    projectile [bl] touches. *)
Definition isFirstHit (bl : Ball.t) (bs : list Block.t) (i : nat) (c : Block.t)
  : Prop :=
  nth_error bs i = Some c /\ Block.alive c = true /\ hits bl c = true /\
  forall j d, (j < i)%nat -> nth_error bs j = Some d ->
    Block.alive d = false \/ hits bl d = false.

(** The fields of the projectile that the block loop leaves alone. *)
Definition sameButVelocity (a b : Ball.t) : Prop :=
  Ball.x a = Ball.x b /\ Ball.y a = Ball.y b /\ Ball.r a = Ball.r b /\
  Ball.damage a = Ball.damage b /\ Ball.alive a = Ball.alive b /\
  Ball.traveled a = Ball.traveled b.

(** The fields of a block that the block loop leaves alone. *)
Definition sameButHp (a b : Block.t) : Prop :=
  Block.x a = Block.x b /\ Block.y a = Block.y b /\ Block.w a = Block.w b /\
  Block.h a = Block.h b /\ Block.maxHp a = Block.maxHp b /\
  Block.mat a = Block.mat b.

(** The index of the block at which the block loop stops. *)
Fixpoint firstHit (bl : Ball.t) (bs : list Block.t) : option nat :=
  match bs with
  | [] => None
  | c :: rest =>
      if negb (Block.alive c) || negb (hits bl c)
      then option_map Datatypes.S (firstHit bl rest)
      else Some 0%nat
  end.

(** ** Pushing blocks *)

(** Running [m] pushes a list of blocks onto the array, each of them
    satisfying [P], and touches no block that is already there. *)
Definition adds {A : Type} (P : Block.t -> Prop) (m : Gen A) : Prop :=
  forall g, exists l,
    g_blocks (snd (runState m g)) = g_blocks g ++ l /\ Forall P l.

(** What [m] pushes when it starts from [g]. *)
Definition pushed {A : Type} (m : Gen A) (g : gen) : list Block.t :=
  skipn (length (g_blocks g)) (g_blocks (snd (runState m g))).

(** A block as [addBlock] makes it: alive, at the full hit points of its
    material. *)
Definition fresh (b : Block.t) : Prop :=
  Block.alive b = true /\
  Block.hp b = hp (materials (Block.mat b)) /\
  Block.maxHp b = hp (materials (Block.mat b)).

(** ** Reachable states *)

(** A block is within its hit points, and alive exactly when it has some
    left. *)
Definition blockOk (c : Block.t) : Prop :=
  Block.hp c <= Block.maxHp c /\ (Block.alive c = true <-> 0 < Block.hp c).

(** What every reachable state satisfies on a display of height [H]: a
    level index from 1, a positive power multiplier, blocks within their
    hit points, a projectile of positive damage potential that, once it
    rests, lies on or above the ground. *)
Definition Inv (H : Q) (st : state) : Prop :=
  (1 <= level st)%Z /\
  0 < powerMult st /\
  Forall blockOk (blocks st) /\
  (forall b, ball st = Some b -> 0 < Ball.damage b) /\
  (forall b, ball st = Some b -> Ball.alive b = false ->
     Ball.y b + Ball.r b <= groundY H).

(** ** Parts of a generated level *)

Section Layouts.

Variables W H : Q.
Variable n : Z.

(** The generator after the theme roll. *)
Definition afterThemeRoll : gen := snd (runState r (gen0 n)).

(** A castle level when the wall loop reaches its last row
    [y = wallHeight - 1]: [startX], [wallWidthBlocks], and the
    generator. *)
Definition wallTopRowStart : Q * Z * gen :=
  let (p1, g1) := runState r afterThemeRoll in
  let wallWidthBlocks := (10 + floor (p1 * 6))%Z in
  let (p2, g2) := runState r g1 in
  let startX := baseX W + (p2 * 20 - 10) in
  (startX, wallWidthBlocks,
   snd (runState
          (for_lt 0 (wallHeight n - 1) (wallRow H n startX wallWidthBlocks))
          g2)).

(** The blocks that the last row of the wall loop pushes. *)
Definition wallTopRow : list Block.t :=
  let '(startX, wallWidthBlocks, g) := wallTopRowStart in
  pushed (wallRow H n startX wallWidthBlocks (wallHeight n - 1)) g.

(** A towers level after the tower loop: the heights of the towers in
    the order of [topYs], [gap], and the generator. *)
Definition towersBuilt : list Z * Q * gen :=
  let (p, g1) := runState r afterThemeRoll in
  let towersN := (2 + floor (p * 2))%Z in
  let gap := baseW W / (towersN + 1) in
  let (hbs, g2) := runState (towerLoop W H n (Z.to_nat towersN) gap 0) g1 in
  (hbs, gap, g2).

Definition towerHeights : list Z := fst (fst towersBuilt).

(** The blocks that the bridge loop pushes. *)
Definition bridgeBlocks : list Block.t :=
  let '(hbs, gap, g) := towersBuilt in
  pushed (bridge W n gap (map (towerTop H n) hbs)) g.

(** C1 as stated: each block of the wall's top row has a material of
    the highest base hit points in the catalog. *)
Definition topRowToughest : Prop :=
  Forall (fun b => forall m, hp (materials m) <= hp (materials (Block.mat b)))
         wallTopRow.

(** C2 as stated: the bridge sits at its clearance [bh + 8] above the
    top of a shortest tower. *)
Definition bridgeAboveShortest : Prop :=
  exists shortest,
    In shortest towerHeights /\
    (forall h, In h towerHeights -> (shortest <= h)%Z) /\
    Forall (fun b => Block.y b == towerTop H n shortest - (bh n + 8))
           bridgeBlocks.

End Layouts.

(** What the last row of the wall pushes. *)
Definition topRowBlock (H : Q) (n : Z) (b : Block.t) : Prop :=
  Block.mat b = stone /\
  Block.hp b = hp (materials stone) /\
  Block.maxHp b = hp (materials stone) /\
  Block.alive b = true /\
  Block.y b = gy H - ((wallHeight n - 1)%Z + 1) * (bh n + 2).

(** What the bridge loop pushes, given the minimum [top] of [topYs]. *)
Definition bridgeBlock (n : Z) (top : Q) (b : Block.t) : Prop :=
  Block.y b = top - (bh n + 8) /\ Block.h b = bh n * 0.65 /\
  Block.mat b = wood.

(** ** Further vocabulary *)

(** The next state of the random stream after [s]. *)
Definition lcgNext (s : Z) : Z := ((1664525 * s + 1013904223) mod 4294967296)%Z.

(** The material [pickMat] answers at level [n] for the number [p] it
    takes from the stream. *)
Definition matFor (n : Z) (p : Q) : material :=
  let t := clamp (n / 18) 0 1 in
  if p <? 0.10 then glass
  else if p <? 0.58 - 0.18 * t then wood
  else if p <? 0.90 - 0.10 * t then stone
  else metal.

(** A block of level [n] of sound shape and place: of positive size, no
    larger than a grid cell, with its lower edge at least 2 above the
    ground. *)
Definition wellPlaced (H : Q) (n : Z) (b : Block.t) : Prop :=
  0 < Block.w b /\ Block.w b <= bw n /\
  0 < Block.h b /\ Block.h b <= bh n /\
  Block.y b + Block.h b <= groundY H - 2.

(** The books of a reachable state on a display of height [H]: a level
    index from 1, a shot count from 0, the power multiplier of the
    level, a block total that counts the blocks, blocks of sound shape
    and place that carry the full hit points of their material, and a
    projectile of the radius and damage potential that [fire] gives at
    that power multiplier. *)
Definition Books (H : Q) (st : state) : Prop :=
  (1 <= level st)%Z /\
  (0 <= shots st)%Z /\
  powerMult st = 1.0 + (level st - 1) * 0.08 /\
  totalBlocks st = Z.of_nat (length (blocks st)) /\
  Forall (fun c => wellPlaced H (level st) c /\
                   Block.maxHp c = hp (materials (Block.mat c)))
         (blocks st) /\
  (forall b, ball st = Some b ->
     14 <= Ball.r b /\ Ball.r b <= 22 /\
     120 * powerMult st <= Ball.damage b /\
     Ball.damage b <= 344 * powerMult st).

(** * Concrete inputs *)

(** ** A rational stand-in for the [Math] functions

    Used where a statement is evaluated on concrete numbers.  Every
    result is cut to six decimals: [hypot] through the integer square
    root, [sin] and [cos] through their Taylor polynomials, [atan2]
    through a quadrant-wise polynomial. *)

Definition decimals6 (v : Q) : Q := Qred (Qfloor (v * 1000000) / 1000000).

Definition sqrtQ (v : Q) : Q :=
  Qred (Z.sqrt (Qfloor (v * 1000000000000)) / 1000000).

Definition sinQ (a : Q) : Q :=
  let a2 := a * a in
  decimals6 (a * (1 - a2 / 6 * (1 - a2 / 20 * (1 - a2 / 42 * (1 - a2 / 72 *
    (1 - a2 / 110)))))).

Definition cosQ (a : Q) : Q :=
  let a2 := a * a in
  decimals6 (1 - a2 / 2 * (1 - a2 / 12 * (1 - a2 / 30 * (1 - a2 / 56 *
    (1 - a2 / 90 * (1 - a2 / 132)))))).

Definition piQ : Q := 3.141593.

Definition atanUnit (z : Q) : Q := z * (piQ / 4 + 0.273 * (1 - Qabs z)).

Definition atanQ (z : Q) : Q :=
  if Qabs z <=? 1 then atanUnit z
  else if 0 <? z then piQ / 2 - atanUnit (/ z)
  else - (piQ / 2) - atanUnit (/ z).

Definition atan2Q (y x : Q) : Q :=
  if 0 <? x then atanQ (y / x)
  else if x <? 0 then (if y <? 0 then atanQ (y / x) - piQ else atanQ (y / x) + piQ)
  else if 0 <? y then piQ / 2
  else if y <? 0 then - (piQ / 2)
  else 0.

Definition approxMath : MathLib :=
  {| hypot := fun x y => sqrtQ (x * x + y * y);
     atan2 := fun y x => decimals6 (atan2Q y x);
     cos := cosQ;
     sin := sinQ |}.

(** ** Concrete levels, states and runs *)

(** A 1280 x 720 display. *)
Definition wideW : Q := 1280.
Definition wideH : Q := 720.

(** A narrow 100 x 720 display, where the structure stands on top of the
    cannon and the first step after a shot hits a block. *)
Definition narrowW : Q := 100.
Definition narrowH : Q := 720.

Definition origin : point := {| px := 0; py := 0 |}.

(** A state of level 1 with the given projectile and blocks. *)
Definition stateWith (bl : option Ball.t) (bs : list Block.t) (total : Z) : state :=
  {| level := 1; shots := 1; powerMult := 1.0;
     aiming := false; aimStart := origin; aimNow := origin;
     ball := bl; blocks := bs; totalBlocks := total; last := 0 |}.

(** Level 1 on the wide display with a projectile put in by hand. *)
Definition wideWith (bl : Ball.t) : state :=
  stateWith (Some bl) (genBlocks wideW wideH 1)
    (Z.of_nat (length (genBlocks wideW wideH 1))).

(** A projectile leaving the play area to the right. *)
Definition ballRight : Ball.t := Ball.mk 1475 300 900 0 14.25 344 true 0.

(** A projectile 500 above the top edge, still rising. *)
Definition ballTop : Ball.t := Ball.mk 300 (-500) 50 (-100) 14.25 344 true 0.

(** A level in which no block was placed, as [makeLevel] would leave it,
    without and with a projectile. *)
Definition emptyLevel : state :=
  {| level := 1; shots := 0; powerMult := 1.0;
     aiming := false; aimStart := origin; aimNow := origin;
     ball := None; blocks := []; totalBlocks := 0; last := 0 |}.

Definition emptyLevelShot : state :=
  stateWith (Some (Ball.mk 179 585 700 0 14.25 120 true 0)) [] 0.

(** Two neighbouring wooden blocks of a row, and a projectile falling
    onto the second one next to the gap between them. *)
Definition blockA : Block.t := Block.mk 100 100 44 28 90 90 wood true.
Definition blockB : Block.t := Block.mk 146 100 44 28 90 90 wood true.
Definition ballFalling : Ball.t := Ball.mk 153 78 0 260 14.25 120 true 0.
Definition twoBlocks : state := stateWith (Some ballFalling) [blockA; blockB] 2.

(** An aim gesture in progress while a projectile flies. *)
Definition aimingWhileFlying : state :=
  {| level := 1; shots := 1; powerMult := 1.0;
     aiming := true; aimStart := origin; aimNow := {| px := 40; py := 650 |};
     ball := Some ballFalling; blocks := [blockA; blockB]; totalBlocks := 2;
     last := 0 |}.

(** A run on the narrow display: press below the cannon, release. *)
Definition narrowShot : state :=
  run (math := approxMath) narrowW narrowH 0 [Down {| px := 0; py := 640 |}; Up].

Definition narrowBall : Ball.t :=
  match ball narrowShot with
  | Some b => b
  | None => ballFalling
  end.

Definition narrowBlock : Block.t := nth 17 (blocks narrowShot) blockA.

(** The same run with a first animation frame after 16 ms, in which the
    projectile hits that block. *)
Definition narrowHit : state :=
  run (math := approxMath) narrowW narrowH 0
    [Down {| px := 0; py := 640 |}; Up; Tick 16].


(** * Properties *)

(** ** Comparisons *)

Lemma Qltb_lt (a b : Q) : (a <? b) = true <-> a < b.
Proof.
  unfold Qltb. rewrite negb_true_iff.
  split; intros Hab.
  - apply Qnot_le_lt. intros Hle. apply Qle_bool_iff in Hle. congruence.
  - destruct (Qle_bool b a) eqn:E; [|reflexivity].
    apply Qle_bool_iff in E. exfalso. eapply Qlt_not_le; eauto.
Qed.

Lemma Qltb_ge (a b : Q) : (a <? b) = false <-> b <= a.
Proof.
  unfold Qltb. rewrite negb_false_iff. apply Qle_bool_iff.
Qed.

Lemma Qgtb_gt (a b : Q) : (a >? b) = true <-> b < a.
Proof. apply Qltb_lt. Qed.

Lemma Qgtb_le (a b : Q) : (a >? b) = false <-> a <= b.
Proof. apply Qltb_ge. Qed.

Lemma Qleb_gt (a b : Q) : (a <=? b) = false <-> b < a.
Proof.
  rewrite <- Qltb_lt. unfold Qltb.
  destruct (Qle_bool a b); simpl; split; congruence.
Qed.

Lemma clamp_lower (v a b : Q) : a <= clamp v a b.
Proof. unfold clamp. apply Q.le_max_l. Qed.

Lemma clamp_mono (v v' a b : Q) : v <= v' -> clamp v a b <= clamp v' a b.
Proof.
  intros Hv. unfold clamp.
  apply Q.max_le_compat_l. apply Q.min_le_compat_l. exact Hv.
Qed.

Lemma clampZ_bounds (v a b : Z) : (a <= b)%Z -> (a <= clampZ v a b <= b)%Z.
Proof. unfold clampZ. lia. Qed.

(** ** Materials (C5) *)

Lemma catalog_complete (m : material) : In m catalog.
Proof. destruct m; simpl; auto. Qed.

Lemma catalog_NoDup : NoDup catalog.
Proof.
  unfold catalog.
  repeat constructor; simpl; intuition discriminate.
Qed.

(** C5, as the code has it: the catalog holds exactly four materials
    (every material tag once), and their base hit points increase
    strictly in the order glass, wood, stone, metal. *)
Theorem materials_four_increasing :
  length catalog = 4%nat /\ NoDup catalog /\ (forall m, In m catalog) /\
  hp (materials glass) < hp (materials wood) /\
  hp (materials wood) < hp (materials stone) /\
  hp (materials stone) < hp (materials metal).
Proof.
  split; [reflexivity|].
  split; [apply catalog_NoDup|].
  split; [apply catalog_complete|].
  simpl. repeat split; reflexivity.
Qed.

(** C5 as stated fails: there are no five distinct materials. *)
Lemma materials_not_five :
  length catalog <> 5%nat /\
  ~ exists l : list material, NoDup l /\ length l = 5%nat.
Proof.
  split; [discriminate|].
  intros [l [Hnd Hlen]].
  assert (Hle : (length l <= length catalog)%nat).
  { apply NoDup_incl_length; [exact Hnd|].
    intros m _. apply catalog_complete. }
  simpl in Hle. lia.
Qed.

(** ** The block loop *)

Section BlockLoop.

Context {math : MathLib}.

Lemma bounce_frame bl c : sameButVelocity (bounce bl c) bl.
Proof. unfold sameButVelocity, bounce. simpl. tauto. Qed.

Lemma damageBlock_frame bl c : sameButHp (damageBlock bl c) c.
Proof. unfold sameButHp, damageBlock. simpl. tauto. Qed.

Lemma collideBlocks_cons bl c bs :
  collideBlocks bl (c :: bs) =
  if negb (Block.alive c) || negb (hits bl c)
  then (fst (collideBlocks bl bs), c :: snd (collideBlocks bl bs))
  else (bounce bl c, damageBlock bl c :: bs).
Proof.
  simpl. destruct (negb (Block.alive c) || negb (hits bl c)); [|reflexivity].
  destruct (collideBlocks bl bs); reflexivity.
Qed.

Lemma collideBlocks_ball_frame bl bs :
  sameButVelocity (fst (collideBlocks bl bs)) bl.
Proof.
  induction bs as [|c bs IH].
  - simpl. unfold sameButVelocity. tauto.
  - rewrite collideBlocks_cons.
    destruct (negb (Block.alive c) || negb (hits bl c)); simpl.
    + exact IH.
    + apply bounce_frame.
Qed.

Lemma collideBlocks_length bl bs :
  length (snd (collideBlocks bl bs)) = length bs.
Proof.
  induction bs as [|c bs IH]; [reflexivity|].
  rewrite collideBlocks_cons.
  destruct (negb (Block.alive c) || negb (hits bl c)); simpl; congruence.
Qed.

Lemma skipped_iff c bl :
  negb (Block.alive c) || negb (hits bl c) = true <->
  Block.alive c = false \/ hits bl c = false.
Proof.
  rewrite orb_true_iff, !negb_true_iff. tauto.
Qed.

(** No live block is touched: the loop changes nothing. *)
Lemma collideBlocks_no_hit bl bs :
  (forall c, In c bs -> Block.alive c = false \/ hits bl c = false) ->
  collideBlocks bl bs = (bl, bs).
Proof.
  induction bs as [|c bs IH]; intros Hall; [reflexivity|].
  rewrite collideBlocks_cons.
  assert (Hc : negb (Block.alive c) || negb (hits bl c) = true).
  { apply skipped_iff. apply Hall. left. reflexivity. }
  rewrite Hc, IH; [reflexivity|].
  intros d Hd. apply Hall. right. exact Hd.
Qed.

(** The first live block that is touched is damaged, the projectile
    bounces off it, and every other block is left as it was. *)
Lemma collideBlocks_first_hit bl bs i c :
  isFirstHit bl bs i c ->
  collideBlocks bl bs =
  (bounce bl c, firstn i bs ++ damageBlock bl c :: skipn (S i) bs).
Proof.
  revert i. induction bs as [|d bs IH]; intros i [Hnth [Ha [Hh Hbefore]]].
  - destruct i; discriminate.
  - rewrite collideBlocks_cons. destruct i as [|i].
    + simpl in Hnth. injection Hnth as ->.
      rewrite Ha, Hh. reflexivity.
    + assert (Hd : negb (Block.alive d) || negb (hits bl d) = true).
      { apply skipped_iff. apply (Hbefore 0%nat); [lia|reflexivity]. }
      rewrite Hd. rewrite (IH i).
      * reflexivity.
      * repeat split; auto.
        intros j e Hj He. apply (Hbefore (S j)); [lia|exact He].
Qed.

(** Index by index: a block is either untouched, or it is the first
    hit and has been damaged. *)
Lemma collideBlocks_nth bl bs i c :
  nth_error bs i = Some c ->
  nth_error (snd (collideBlocks bl bs)) i = Some c \/
  (isFirstHit bl bs i c /\
   nth_error (snd (collideBlocks bl bs)) i = Some (damageBlock bl c)).
Proof.
  revert i. induction bs as [|d bs IH]; intros i Hnth.
  - destruct i; discriminate.
  - rewrite collideBlocks_cons.
    destruct (negb (Block.alive d) || negb (hits bl d)) eqn:Hd.
    + destruct i as [|i]; simpl in *; [left; exact Hnth|].
      destruct (IH i Hnth) as [Hsame|[Hfirst Hdam]]; [left; exact Hsame|].
      right. split; [|exact Hdam].
      destruct Hfirst as [Hn [Ha [Hh Hbefore]]].
      repeat split; auto.
      intros j e Hj He. destruct j as [|j]; simpl in He.
      * injection He as <-. apply skipped_iff. exact Hd.
      * apply (Hbefore j); [lia|exact He].
    + apply orb_false_iff in Hd. destruct Hd as [Ha Hh].
      apply negb_false_iff in Ha, Hh.
      destruct i as [|i]; simpl in *.
      * injection Hnth as ->. right. split; [|reflexivity].
        repeat split; auto. intros j e Hj. lia.
      * left. exact Hnth.
Qed.

Lemma nth_error_replace {A} (l : list A) i (a a' : A) :
  nth_error l i = Some a ->
  nth_error (firstn i l ++ a' :: skipn (S i) l) i = Some a'.
Proof.
  revert i. induction l as [|b l IH]; intros i Hnth.
  - destruct i; discriminate.
  - destruct i as [|i]; simpl in *; [reflexivity|]. apply IH. exact Hnth.
Qed.

End BlockLoop.

(** ** One simulation step *)

Section Step.

Context {math : MathLib}.
(** [W] and [H] stand for [window.innerWidth] and [window.innerHeight]. *)
Variables W H : Q.

Lemma update_flying dt st b :
  ball st = Some b -> Ball.alive b = true ->
  update W H dt st =
  if wins (physics W H dt b st) then advance W H (physics W H dt b st)
  else physics W H dt b st.
Proof. intros Hb Ha. unfold update. rewrite Hb, Ha. reflexivity. Qed.

Lemma update_idle dt st : noActiveBall st = true -> update W H dt st = st.
Proof.
  unfold noActiveBall, update. destruct (ball st) as [b|]; [|reflexivity].
  intros Ha. apply negb_true_iff in Ha. rewrite Ha. reflexivity.
Qed.

Lemma physics_eq dt b st :
  physics W H dt b st =
  set_physics (fst (collideBlocks (moveBall W H dt b) (blocks st)))
              (snd (collideBlocks (moveBall W H dt b) (blocks st))) st.
Proof.
  unfold physics.
  destruct (collideBlocks (moveBall W H dt b) (blocks st)); reflexivity.
Qed.

Lemma physics_ball_frame dt b st :
  exists bl, ball (physics W H dt b st) = Some bl /\
             sameButVelocity bl (moveBall W H dt b).
Proof.
  rewrite physics_eq. eexists. split; [reflexivity|].
  apply collideBlocks_ball_frame.
Qed.

Lemma advance_fresh st :
  ball (advance W H st) = None /\
  level (advance W H st) = (level st + 1)%Z /\
  blocks (advance W H st) = genBlocks W H (level st + 1) /\
  totalBlocks (advance W H st) =
    Z.of_nat (length (genBlocks W H (level st + 1))).
Proof.
  unfold advance. destruct (ball st); simpl; repeat split; reflexivity.
Qed.

Lemma outOfBounds_position m :
  Ball.x (outOfBounds W H m) = Ball.x m /\ Ball.y (outOfBounds W H m) = Ball.y m /\
  Ball.r (outOfBounds W H m) = Ball.r m.
Proof.
  unfold outOfBounds. destruct (isOutOfBounds W H m); simpl; tauto.
Qed.


(** *** Firing is gated on the projectile (C7) *)

(** C7: releasing the aim gesture while a projectile is alive changes
    nothing but the [aiming] flag: the projectile is the same record,
    no other one is created (the state holds one), the shot counter
    and everything else keep their values. *)
Theorem onUp_while_flying_is_noop (st : state) (b : Ball.t) :
  ball st = Some b -> Ball.alive b = true ->
  ball (onUp W H st) = Some b /\
  shots (onUp W H st) = shots st /\
  level (onUp W H st) = level st /\
  powerMult (onUp W H st) = powerMult st /\
  blocks (onUp W H st) = blocks st /\
  totalBlocks (onUp W H st) = totalBlocks st /\
  aimStart (onUp W H st) = aimStart st /\
  aimNow (onUp W H st) = aimNow st /\
  last (onUp W H st) = last st /\
  aiming (onUp W H st) = false.
Proof.
  intros Hb Ha. unfold onUp.
  destruct (aiming st) eqn:Haim; simpl.
  - unfold noActiveBall. simpl. rewrite Hb, Ha. simpl.
    repeat split; auto.
  - repeat split; auto.
Qed.

(** *** Out of bounds (C3) *)

(** C3, as the code has it: when the projectile, after integration and
    the ground phase of a step, is more than 200 left of the play
    area, more than 200 right of it, or more than 300 below it, it is
    inert when the step ends (dead, or removed by a level advance W H). *)
Theorem out_of_bounds_left_right_bottom (st : state) (dt : Q) (b : Ball.t) :
  ball st = Some b -> Ball.alive b = true ->
  (Ball.x (groundCollision H (integrate dt b)) < -200 \/
   W + 200 < Ball.x (groundCollision H (integrate dt b)) \/
   H + 300 < Ball.y (groundCollision H (integrate dt b))) ->
  noActiveBall (update W H dt st) = true.
Proof.
  intros Hb Ha Hout.
  rewrite (update_flying dt st b Hb Ha).
  destruct (wins (physics W H dt b st)).
  - unfold noActiveBall.
    destruct (advance_fresh (physics W H dt b st)) as [-> _]. reflexivity.
  - destruct (physics_ball_frame dt b st) as [bl [Hbl Hframe]].
    unfold noActiveBall. rewrite Hbl.
    destruct Hframe as [_ [_ [_ [_ [Halive _]]]]]. rewrite Halive.
    unfold moveBall, outOfBounds.
    assert (Hoob : isOutOfBounds W H (groundCollision H (integrate dt b)) = true).
    { unfold isOutOfBounds. rewrite !orb_true_iff.
      destruct Hout as [Hl|[Hr|Hd]].
      - left. left. apply Qltb_lt. exact Hl.
      - left. right. apply Qgtb_gt. exact Hr.
      - right. apply Qgtb_gt. exact Hd. }
    rewrite Hoob. reflexivity.
Qed.

(** *** Zero blocks (C4) *)

(** C4, as the code has it: with [totalBlocks = 0] the advance W H check
    takes the destroyed fraction to be 1 without dividing, so a step
    that starts with a live projectile advances the level; a step
    with no live projectile changes nothing; and the percentage shown
    by [syncHud] is 0. *)
Theorem zero_blocks_defined (st : state) (dt : Q) :
  totalBlocks st = 0%Z ->
  (forall bs, destroyedPct bs (totalBlocks st) = 1) /\
  elDestroyed (syncHud st) = 0%Z /\
  (forall b, ball st = Some b -> Ball.alive b = true ->
     update W H dt st = advance W H (physics W H dt b st) /\
     level (update W H dt st) = (level st + 1)%Z /\
     ball (update W H dt st) = None /\
     blocks (update W H dt st) = genBlocks W H (level st + 1)) /\
  (noActiveBall st = true -> update W H dt st = st).
Proof.
  intros Hz. split; [|split; [|split]].
  - intros bs. unfold destroyedPct. rewrite Hz. reflexivity.
  - unfold syncHud. rewrite Hz. reflexivity.
  - intros b Hb Ha.
    rewrite (update_flying dt st b Hb Ha).
    assert (Hw : wins (physics W H dt b st) = true).
    { unfold wins, destroyedPct. rewrite physics_eq. simpl.
      rewrite Hz. reflexivity. }
    rewrite Hw.
    destruct (advance_fresh (physics W H dt b st)) as [Hn [Hl [Hbs _]]].
    rewrite Hn, Hl, Hbs. rewrite physics_eq. simpl. repeat split; reflexivity.
  - apply update_idle.
Qed.

End Step.

(** ** The generator only appends blocks *)

Section Adds.

Variable P : Block.t -> Prop.

Lemma runState_bind {A B} (m : Gen A) (f : A -> Gen B) g :
  runState (bind m f) g =
  runState (f (fst (runState m g))) (snd (runState m g)).
Proof. simpl. destruct (runState m g); reflexivity. Qed.

Lemma adds_ret {A} (a : A) : adds P (ret a).
Proof.
  intros g. exists []. simpl. rewrite app_nil_r. split; [reflexivity|constructor].
Qed.

Lemma adds_bind {A B} (m : Gen A) (f : A -> Gen B) :
  adds P m -> (forall a, adds P (f a)) -> adds P (bind m f).
Proof.
  intros Hm Hf g. rewrite runState_bind.
  destruct (Hm g) as [l1 [E1 F1]].
  destruct (Hf (fst (runState m g)) (snd (runState m g))) as [l2 [E2 F2]].
  exists (l1 ++ l2). rewrite E2, E1, app_assoc. split; [reflexivity|].
  apply Forall_app. split; assumption.
Qed.

Lemma adds_bind_ret {A B} (a : A) (f : A -> Gen B) :
  adds P (f a) -> adds P (bind (ret a) f).
Proof. intros Hf g. destruct (Hf g) as [l Hl]. exists l. exact Hl. Qed.

Lemma adds_r : adds P r.
Proof.
  intros g. exists []. simpl. rewrite app_nil_r. split; [reflexivity|constructor].
Qed.

Lemma adds_addBlock x y w h mat :
  P (Block.mk x y w h (hp (materials mat)) (hp (materials mat)) mat true) ->
  adds P (addBlock x y w h mat).
Proof.
  intros HP g. eexists. simpl. split; [reflexivity|].
  constructor; [exact HP|constructor].
Qed.

Lemma adds_for_count count i body :
  (forall j, adds P (body j)) -> adds P (for_count count i body).
Proof.
  intros Hbody. revert i.
  induction count as [|count IH]; intros i; simpl for_count.
  - apply adds_ret.
  - apply adds_bind; [apply Hbody|]. intros _. apply IH.
Qed.

Lemma adds_for_lt lo hi body :
  (forall j, adds P (body j)) -> adds P (for_lt lo hi body).
Proof. intros Hbody. apply adds_for_count. exact Hbody. Qed.

Lemma adds_pickMat n : adds P (pickMat n).
Proof.
  unfold pickMat. apply adds_bind; [apply adds_r|]. intros p.
  repeat (match goal with |- adds _ (if ?c then _ else _) => destruct c end);
    apply adds_ret.
Qed.

Lemma adds_pushed {A} (m : Gen A) g :
  adds P m ->
  g_blocks (snd (runState m g)) = g_blocks g ++ pushed m g /\
  Forall P (pushed m g).
Proof.
  intros Hm. destruct (Hm g) as [l [E F]]. unfold pushed.
  rewrite E, skipn_app, skipn_all, Nat.sub_diag. simpl. split; [reflexivity|exact F].
Qed.

End Adds.

Lemma adds_weaken {A} (P P' : Block.t -> Prop) (m : Gen A) :
  (forall b, P b -> P' b) -> adds P m -> adds P' m.
Proof.
  intros HPP Hm g. destruct (Hm g) as [l [E F]]. exists l. split; [exact E|].
  eapply Forall_impl; [|exact F]. exact HPP.
Qed.

(** Pushing goes through the structure of the generator. *)
Ltac adds_step :=
  match goal with
  | |- adds _ (bind (ret _) _) => apply adds_bind_ret
  | |- adds _ (bind _ _) => apply adds_bind; [|intro]
  | |- adds _ (ret _) => apply adds_ret
  | |- adds _ r => apply adds_r
  | |- adds _ (pickMat _) => apply adds_pickMat
  | |- adds _ (for_lt _ _ _) => apply adds_for_lt; intro
  | |- adds _ (for_count _ _ _) => apply adds_for_count; intro
  | |- adds _ (if ?c then _ else _) => destruct c
  | |- adds _ (match ?c with _ => _ end) => destruct c
  | |- adds _ (addBlock _ _ _ _ _) => apply adds_addBlock
  end.

Lemma fresh_hp_positive b : fresh b -> 0 < Block.hp b /\ Block.hp b <= Block.maxHp b.
Proof.
  intros [_ [Hhp Hmax]]. rewrite Hhp, Hmax.
  destruct (Block.mat b); simpl; split; try reflexivity;
    apply Qle_refl.
Qed.

Section GeneratorFacts.

Variables W H : Q.
Variable n : Z.

Lemma fresh_addBlock x y w h mat : adds fresh (addBlock x y w h mat).
Proof. apply adds_addBlock. repeat split. Qed.

#[local] Hint Resolve fresh_addBlock : core.

Lemma adds_fresh_layout th : adds fresh (layout W H n th).
Proof.
  destruct th; simpl.
  - unfold castleTheme, wallRow, wallCell, castleTowers, castleTower,
      castleTowerCell, battlement.
    repeat (adds_step; auto).
  - unfold cityTheme, cityBuilding, cityCell. repeat (adds_step; auto).
  - unfold towersTheme, bridge.
    adds_step; [adds_step|]. adds_step.
    + clear. generalize 0%Z.
      induction (Z.to_nat _) as [|k IH]; intros i; cbn [towerLoop].
      * adds_step.
      * unfold tower, towerCell. repeat (adds_step; auto).
    + unfold bridgeCell. repeat (adds_step; auto).
Qed.

Lemma adds_fresh_generate : adds fresh (generate W H n).
Proof.
  unfold generate, decoPass, decoBlock.
  adds_step; [adds_step|]. adds_step; [apply adds_fresh_layout|].
  repeat (adds_step; auto).
Qed.

(** Every block of a generated level is alive and at full hit points. *)
Lemma genBlocks_fresh : Forall fresh (genBlocks W H n).
Proof.
  unfold genBlocks, execState.
  destruct (adds_fresh_generate (gen0 n)) as [l [E F]].
  rewrite E. exact F.
Qed.

End GeneratorFacts.

(** ** Invariants of the reachable states *)

Lemma fresh_blockOk c : fresh c -> blockOk c.
Proof.
  intros Hf. destruct (fresh_hp_positive c Hf) as [Hpos Hle].
  destruct Hf as [Ha _]. split; [exact Hle|]. tauto.
Qed.

Lemma dmgAt_positive d speed : 0 < d -> 0 < dmgAt d speed.
Proof.
  intros Hd. unfold dmgAt.
  apply Qmult_lt_0_compat; [exact Hd|].
  pose proof (clamp_lower (speed / 1200) 0.0 1.2) as Hc.
  lra.
Qed.

(** For a fixed damage potential, more impact speed never deals less. *)
Lemma dmgAt_monotone d s1 s2 : 0 <= d -> s1 <= s2 -> dmgAt d s1 <= dmgAt d s2.
Proof.
  intros Hd Hs. unfold dmgAt.
  assert (Hc : clamp (s1 / 1200) 0.0 1.2 <= clamp (s2 / 1200) 0.0 1.2).
  { apply clamp_mono. unfold Qdiv. apply Qmult_le_compat_r; [exact Hs|].
    discriminate. }
  rewrite !(Qmult_comm d).
  apply Qmult_le_compat_r; [lra|exact Hd].
Qed.

Section Reachable.

Context {math : MathLib}.
Variables W H : Q.

Lemma damageBlock_ok bl c :
  0 < Ball.damage bl -> Block.alive c = true -> blockOk c ->
  blockOk (damageBlock bl c) /\
  Block.hp (damageBlock bl c) < Block.hp c.
Proof.
  intros Hd Ha [Hmax Hiff].
  pose proof (dmgAt_positive (Ball.damage bl) (impactSpeed bl) Hd) as Hpos.
  fold (dmg bl) in Hpos.
  unfold blockOk, damageBlock. simpl.
  split; [split|]; try lra.
  destruct (Block.hp c - dmg bl <=? 0) eqn:E.
  - apply Qle_bool_iff in E. split; [discriminate|]. intros Hlt. lra.
  - apply Qleb_gt in E. rewrite Ha. tauto.
Qed.

Lemma collideBlocks_ok bl bs :
  0 < Ball.damage bl -> Forall blockOk bs ->
  Forall blockOk (snd (collideBlocks bl bs)).
Proof.
  intros Hd. induction bs as [|c bs IH]; intros Hall; [constructor|].
  inversion Hall as [|? ? Hc Hbs]; subst.
  rewrite collideBlocks_cons.
  destruct (negb (Block.alive c) || negb (hits bl c)) eqn:E; simpl.
  - constructor; [exact Hc|]. apply IH. exact Hbs.
  - apply orb_false_iff in E. destruct E as [Ha _].
    apply negb_false_iff in Ha.
    constructor; [|exact Hbs]. apply damageBlock_ok; assumption.
Qed.

(** Whatever the ground phase does, the projectile ends it on or above
    the ground. *)
Lemma groundCollision_grounded b :
  Ball.y (groundCollision H b) + Ball.r (groundCollision H b) <= groundY H.
Proof.
  unfold groundCollision.
  destruct (Ball.y b + Ball.r b >? groundY H) eqn:E; simpl.
  - lra.
  - apply Qgtb_le. exact E.
Qed.


Lemma moveBall_grounded dt b :
  Ball.y (moveBall W H dt b) + Ball.r (moveBall W H dt b) <= groundY H.
Proof.
  unfold moveBall.
  destruct (outOfBounds_position W H (groundCollision H (integrate dt b)))
    as [_ [-> ->]].
  apply groundCollision_grounded.
Qed.

Lemma moveBall_damage dt b : Ball.damage (moveBall W H dt b) = Ball.damage b.
Proof.
  unfold moveBall, outOfBounds, groundCollision.
  destruct (isOutOfBounds _ _ _); destruct (_ >? _); reflexivity.
Qed.

Lemma Inv_makeLevel n st : (1 <= n)%Z -> level st = n -> Inv H (makeLevel W H n st).
Proof.
  intros Hn Hl. unfold Inv. simpl.
  split; [lia|]. split; [|split; [|split]].
  - rewrite Zle_Qle in Hn. change (inject_Z 1) with 1 in Hn. lra.
  - eapply Forall_impl; [|apply genBlocks_fresh]. apply fresh_blockOk.
  - intros b Hb. discriminate.
  - intros b Hb. discriminate.
Qed.

Lemma Inv_fire fx fy tx ty st : Inv H st -> Inv H (fire fx fy tx ty st).
Proof.
  intros [Hl [Hp [Hbs _]]]. unfold Inv. simpl.
  repeat split; auto.
  - intros b Hb. injection Hb as <-. simpl.
    apply Qmult_lt_0_compat; [|exact Hp].
    pose proof (clamp_lower (len (fx - tx) (fy - ty)) 0 160). lra.
  - intros b Hb Ha. injection Hb as <-. discriminate.
Qed.

Lemma Inv_physics dt b st :
  Inv H st -> ball st = Some b ->
  Inv H (physics W H dt b st) /\
  (forall b', ball (physics W H dt b st) = Some b' ->
     Ball.y b' + Ball.r b' <= groundY H).
Proof.
  intros [Hl [Hp [Hbs [Hd _]]]] Hb.
  assert (Hground : forall b', ball (physics W H dt b st) = Some b' ->
            Ball.y b' + Ball.r b' <= groundY H).
  { intros b' Hb'.
    destruct (physics_ball_frame W H dt b st) as [bl [Hbl Hframe]].
    rewrite Hbl in Hb'. injection Hb' as <-.
    destruct Hframe as [_ [-> [-> _]]]. apply moveBall_grounded. }
  split; [|exact Hground].
  unfold Inv. rewrite physics_eq in *. simpl in *.
  repeat split; auto.
  - apply collideBlocks_ok; [|exact Hbs].
    rewrite moveBall_damage. apply Hd. exact Hb.
  - intros b' Hb'. injection Hb' as <-.
    destruct (collideBlocks_ball_frame (moveBall W H dt b) (blocks st))
      as [_ [_ [_ [-> _]]]].
    rewrite moveBall_damage. apply Hd. exact Hb.
Qed.

Lemma Inv_advance st : Inv H st -> Inv H (advance W H st).
Proof.
  intros [Hl _]. unfold advance.
  apply Inv_makeLevel; destruct (ball st); simpl; lia.
Qed.

Lemma Inv_update dt st :
  Inv H st -> Inv H (update W H dt st) /\
  (forall b', ball (update W H dt st) = Some b' ->
     Ball.y b' + Ball.r b' <= groundY H).
Proof.
  intros HI. unfold update.
  destruct (ball st) as [b|] eqn:Hb.
  - destruct (Ball.alive b) eqn:Ha.
    + destruct (Inv_physics dt b st HI Hb) as [HI1 Hg1].
      destruct (wins (physics W H dt b st)).
      * split; [apply Inv_advance; exact HI1|].
        intros b' Hb'.
        destruct (advance_fresh W H (physics W H dt b st)) as [Hn _].
        congruence.
      * split; assumption.
    + split; [exact HI|]. intros b' Hb'.
      destruct HI as [_ [_ [_ [_ Hrest]]]]. apply Hrest; congruence.
  - split; [exact HI|]. intros b' Hb'. congruence.
Qed.

Lemma Inv_set_aim a p q st : Inv H st -> Inv H (set_aim a p q st).
Proof. intros HI. exact HI. Qed.

Lemma Inv_set_last now st : Inv H st -> Inv H (set_last now st).
Proof. intros HI. exact HI. Qed.

Lemma Inv_handle e st : Inv H st -> Inv H (handle W H e st).
Proof.
  intros HI. destruct e as [p|p| | |now]; simpl.
  - apply Inv_set_aim. exact HI.
  - unfold onMove. destruct (negb (aiming st)); [exact HI|].
    apply Inv_set_aim. exact HI.
  - unfold onUp. destruct (negb (aiming st)); [exact HI|].
    destruct (noActiveBall _).
    + apply Inv_fire. apply Inv_set_aim. exact HI.
    + apply Inv_set_aim. exact HI.
  - apply Inv_makeLevel; [apply HI|reflexivity].
  - unfold tick. apply Inv_update. apply Inv_set_last. exact HI.
Qed.

Lemma reachable_Inv st : reachable W H st -> Inv H st.
Proof.
  induction 1 as [t0|st e _ IH].
  - unfold boot. apply Inv_makeLevel; [simpl; lia|reflexivity].
  - apply Inv_handle. exact IH.
Qed.

Lemma run_reachable t0 es : reachable W H (run W H t0 es).
Proof.
  unfold run. generalize (reach_boot W H t0). generalize (boot W H t0).
  induction es as [|e es IH]; intros st Hst; simpl; [exact Hst|].
  apply IH. apply reach_step. exact Hst.
Qed.

End Reachable.

(** ** Hit points, ground, damage, and what a collision touches *)

Section Claims.

Context {math : MathLib}.
Variables W H : Q.

Lemma physics_blocks_nth dt b st i c :
  nth_error (blocks st) i = Some c ->
  nth_error (blocks (physics W H dt b st)) i = Some c \/
  (isFirstHit (moveBall W H dt b) (blocks st) i c /\
   nth_error (blocks (physics W H dt b st)) i =
     Some (damageBlock (moveBall W H dt b) c)).
Proof.
  intros Hnth. rewrite physics_eq. simpl.
  apply collideBlocks_nth. exact Hnth.
Qed.

Lemma dead_stays_dead_physics dt b st i c :
  nth_error (blocks st) i = Some c -> Block.alive c = false ->
  nth_error (blocks (physics W H dt b st)) i = Some c.
Proof.
  intros Hnth Hdead.
  destruct (physics_blocks_nth dt b st i c Hnth) as [Hsame|[Hfirst _]];
    [exact Hsame|].
  destruct Hfirst as [_ [Ha _]]. congruence.
Qed.

(** A dead block stays in place and dead through every event, until
    the whole block list is replaced by a freshly generated level. *)
Lemma dead_stays_dead e st i c :
  nth_error (blocks st) i = Some c -> Block.alive c = false ->
  nth_error (blocks (handle W H e st)) i = Some c \/
  blocks (handle W H e st) = genBlocks W H (level (handle W H e st)).
Proof.
  intros Hnth Hdead. destruct e as [p|p| | |now]; simpl.
  - left. exact Hnth.
  - left. unfold onMove. destruct (negb (aiming st)); exact Hnth.
  - left. unfold onUp. destruct (negb (aiming st)); [exact Hnth|].
    destruct (noActiveBall _); exact Hnth.
  - right. reflexivity.
  - unfold tick, update. simpl.
    destruct (ball st) as [b|]; [|left; exact Hnth].
    destruct (Ball.alive b); [|left; exact Hnth].
    destruct (wins _).
    + right.
      destruct (advance_fresh W H (physics W H (clamp ((now - last st) / 1000) 0 DT_MAX) b (set_last now st)))
        as [_ [-> [-> _]]].
      reflexivity.
    + left. apply dead_stays_dead_physics; assumption.
Qed.

(** C6: in every reachable state each live block has
    [0 < hp <= maxHp]; after the block loop of a step a block whose
    hit points are at or below zero is dead, and a block that was dead
    before the loop is untouched by it; and through every event a dead
    block stays dead for as long as its level's block list lives. *)
Theorem hp_invariant (st : state) :
  reachable W H st ->
  Forall (fun c => Block.alive c = true ->
                   0 < Block.hp c /\ Block.hp c <= Block.maxHp c)
         (blocks st) /\
  (forall dt b i c c',
     ball st = Some b -> Ball.alive b = true ->
     nth_error (blocks st) i = Some c ->
     nth_error (blocks (physics W H dt b st)) i = Some c' ->
     (Block.hp c' <= 0 -> Block.alive c' = false) /\
     (Block.alive c = false -> c' = c)) /\
  (forall e i c,
     nth_error (blocks st) i = Some c -> Block.alive c = false ->
     nth_error (blocks (handle W H e st)) i = Some c \/
     blocks (handle W H e st) = genBlocks W H (level (handle W H e st))).
Proof.
  intros Hreach. pose proof (reachable_Inv W H st Hreach) as HI.
  split; [|split].
  - destruct HI as [_ [_ [Hbs _]]].
    eapply Forall_impl; [|exact Hbs].
    intros c [Hmax Hiff] Ha. split; [apply Hiff; exact Ha|exact Hmax].
  - intros dt b i c c' Hb Ha Hc Hc'. split.
    + intros Hzero.
      destruct (Inv_physics W H dt b st HI Hb) as [[_ [_ [Hbs _]]] _].
      rewrite Forall_forall in Hbs.
      destruct (Hbs c' (nth_error_In _ _ Hc')) as [_ Hiff].
      destruct (Block.alive c'); [|reflexivity].
      assert (0 < Block.hp c') by (apply Hiff; reflexivity). lra.
    + intros Hdead.
      rewrite (dead_stays_dead_physics dt b st i c Hc Hdead) in Hc'.
      congruence.
  - intros e i c. apply dead_stays_dead.
Qed.


(** C9: when the projectile of a reachable state hits a block in a
    step, the block loses [damage * (0.35 + clamp(speed / 1200, 0, 1.2))]
    hit points, where [speed] is the length of the velocity the
    projectile has when the block loop runs in that step and [damage]
    is the projectile's damage potential; for that damage potential
    the loss is non-decreasing in the speed. *)
Theorem collision_damage (st : state) (dt : Q) (b : Ball.t) (i : nat)
    (c : Block.t) :
  reachable W H st ->
  ball st = Some b -> Ball.alive b = true ->
  isFirstHit (moveBall W H dt b) (blocks st) i c ->
  (exists c',
     nth_error (blocks (physics W H dt b st)) i = Some c' /\
     Block.hp c' =
       Block.hp c -
       Ball.damage b *
         (0.35 + clamp (len (Ball.vx (moveBall W H dt b))
                            (Ball.vy (moveBall W H dt b)) / 1200) 0.0 1.2)) /\
  (forall s1 s2, s1 <= s2 ->
     dmgAt (Ball.damage b) s1 <= dmgAt (Ball.damage b) s2).
Proof.
  intros Hreach Hb Ha Hfirst. split.
  - exists (damageBlock (moveBall W H dt b) c). split.
    + rewrite physics_eq. simpl.
      rewrite (collideBlocks_first_hit _ _ i c Hfirst). simpl.
      apply nth_error_replace with (a := c). apply Hfirst.
    + unfold damageBlock, dmg, dmgAt, impactSpeed. simpl.
      rewrite moveBall_damage. reflexivity.
  - intros s1 s2 Hs. apply dmgAt_monotone; [|exact Hs].
    destruct (reachable_Inv W H st Hreach) as [_ [_ [_ [Hd _]]]].
    apply Qlt_le_weak. apply Hd. exact Hb.
Qed.

(** C10, as the code has it: the block loop of a step changes, of the
    projectile, only the velocity, and, of the blocks, only the hit
    points and the alive flag of the first live block the projectile
    touches; the position is not corrected.  So in every step that
    starts with a live projectile, the first live block in collection
    order that the moved projectile touches is damaged, also when it
    was hit in the step before. *)
Theorem block_collision_frame (st : state) (dt : Q) (b : Ball.t) :
  ball st = Some b -> Ball.alive b = true ->
  (wins (physics W H dt b st) = false ->
     update W H dt st = physics W H dt b st) /\
  (exists b1, ball (physics W H dt b st) = Some b1 /\
              sameButVelocity b1 (moveBall W H dt b)) /\
  length (blocks (physics W H dt b st)) = length (blocks st) /\
  (forall i c, nth_error (blocks st) i = Some c ->
     exists c1, nth_error (blocks (physics W H dt b st)) i = Some c1 /\
                sameButHp c1 c /\
                (c1 = c \/ isFirstHit (moveBall W H dt b) (blocks st) i c)) /\
  (forall i c, isFirstHit (moveBall W H dt b) (blocks st) i c ->
     nth_error (blocks (physics W H dt b st)) i =
       Some (damageBlock (moveBall W H dt b) c) /\
     Block.hp (damageBlock (moveBall W H dt b) c) =
       Block.hp c - dmg (moveBall W H dt b) /\
     (0 < Ball.damage b ->
      Block.hp (damageBlock (moveBall W H dt b) c) < Block.hp c)).
Proof.
  intros Hb Ha. split; [|split; [|split; [|split]]].
  - intros Hw. rewrite (update_flying W H dt st b Hb Ha), Hw. reflexivity.
  - apply physics_ball_frame.
  - rewrite physics_eq. simpl. apply collideBlocks_length.
  - intros i c Hc.
    destruct (physics_blocks_nth dt b st i c Hc) as [Hsame|[Hfirst Hdam]].
    + exists c. split; [exact Hsame|]. split; [|left; reflexivity].
      unfold sameButHp. tauto.
    + eexists. split; [exact Hdam|]. split; [|right; exact Hfirst].
      apply damageBlock_frame.
  - intros i c Hfirst. split; [|split].
    + rewrite physics_eq. simpl.
      rewrite (collideBlocks_first_hit _ _ i c Hfirst). simpl.
      apply nth_error_replace with (a := c). apply Hfirst.
    + reflexivity.
    + intros Hd. unfold damageBlock. simpl.
      pose proof (dmgAt_positive (Ball.damage (moveBall W H dt b))
                    (impactSpeed (moveBall W H dt b))) as Hpos.
      rewrite moveBall_damage in Hpos. specialize (Hpos Hd).
      unfold dmg. rewrite moveBall_damage. lra.
Qed.

End Claims.

(** ** The castle wall and the bridge of the towers *)

Lemma r_range g : 0 <= fst (runState r g) /\ fst (runState r g) < 1.
Proof.
  change (fst (runState r g))
    with (inject_Z ((1664525 * s g + 1013904223) mod 4294967296) / 4294967296).
  pose proof (Z.mod_pos_bound (1664525 * s g + 1013904223) 4294967296
                ltac:(reflexivity)) as Hm.
  generalize dependent ((1664525 * s g + 1013904223) mod 4294967296)%Z.
  intros m Hm.
  unfold Qle, Qlt, Qdiv, Qmult, Qinv, inject_Z. cbn [Qnum Qden]. lia.
Qed.

Lemma Qmin_cases a b : (Qmin a b = a /\ a <= b) \/ (Qmin a b = b /\ b <= a).
Proof.
  unfold Qmin, GenericMinMax.gmin.
  destruct (a ?= b) eqn:E.
  - left. split; [reflexivity|]. apply Qeq_alt in E. rewrite E. apply Qle_refl.
  - left. split; [reflexivity|]. apply Qlt_alt in E. apply Qlt_le_weak. exact E.
  - right. split; [reflexivity|]. apply Qgt_alt in E. apply Qlt_le_weak. exact E.
Qed.

Lemma fold_Qmin_spec l q :
  (fold_left Qmin l q = q \/ In (fold_left Qmin l q) l) /\
  fold_left Qmin l q <= q /\
  (forall x, In x l -> fold_left Qmin l q <= x).
Proof.
  revert q. induction l as [|a l IH]; intros q; simpl.
  - split; [left; reflexivity|]. split; [apply Qle_refl|]. intros x [].
  - destruct (IH (Qmin q a)) as [Hin [Hle Hall]].
    destruct (Qmin_cases q a) as [[E Hqa]|[E Hqa]]; rewrite E in *.
    + split; [tauto|]. split; [exact Hle|].
      intros x [<-|Hx]; [eapply Qle_trans; eauto|apply Hall; exact Hx].
    + split; [destruct Hin; auto|]. split; [eapply Qle_trans; eauto|].
      intros x [<-|Hx]; [exact Hle|apply Hall; exact Hx].
Qed.

(** [Math.min(...l)] is an element of [l] and a lower bound of it. *)
Lemma minimum_spec l m :
  minimum l = Some m -> In m l /\ forall x, In x l -> m <= x.
Proof.
  destruct l as [|q l]; [discriminate|]. simpl. intros E. injection E as <-.
  destruct (fold_Qmin_spec l q) as [Hin [Hle Hall]].
  split; [destruct Hin as [->|Hin]; auto|].
  intros x [<-|Hx]; [exact Hle|apply Hall; exact Hx].
Qed.

Lemma for_count_last count i body g :
  snd (runState (for_count (S count) i body) g) =
  snd (runState (body (i + Z.of_nat count)%Z)
         (snd (runState (for_count count i body) g))).
Proof.
  revert i g. induction count as [|count IH]; intros i g.
  - cbn [for_count]. rewrite runState_bind. simpl. rewrite Z.add_0_r.
    destruct (runState (body i) g) as [[] g']. reflexivity.
  - change (for_count (S (S count)) i body)
      with (bind (body i) (fun _ => for_count (S count) (i + 1)%Z body)).
    rewrite runState_bind, IH.
    change (for_count (S count) i body)
      with (bind (body i) (fun _ => for_count count (i + 1)%Z body)).
    rewrite runState_bind.
    replace (i + 1 + Z.of_nat count)%Z with (i + Z.of_nat (S count))%Z by lia.
    reflexivity.
Qed.

Section LayoutFacts.

Variables W H : Q.
Variable n : Z.

Lemma bh_range : (18 <= bh n <= 28)%Z.
Proof. unfold bh. apply clampZ_bounds. lia. Qed.

Lemma wallHeight_lower : (3 <= wallHeight n)%Z.
Proof. unfold wallHeight, clampZ. lia. Qed.

Lemma generate_run :
  runState (generate W H n) (gen0 n) =
  (pickTheme (fst (runState r (gen0 n))),
   snd (runState (decoPass W H n)
          (snd (runState
                  (layout W H n (pickTheme (fst (runState r (gen0 n)))))
                  (afterThemeRoll n))))).
Proof.
  unfold generate. rewrite !runState_bind. reflexivity.
Qed.

Lemma themeOf_eq : themeOf W H n = pickTheme (fst (runState r (gen0 n))).
Proof. unfold themeOf, evalState. rewrite generate_run. reflexivity. Qed.

Lemma genBlocks_eq :
  genBlocks W H n =
  g_blocks (snd (runState (decoPass W H n)
              (snd (runState (layout W H n (themeOf W H n))
                      (afterThemeRoll n))))).
Proof.
  unfold genBlocks, execState. rewrite generate_run, themeOf_eq. reflexivity.
Qed.

Lemma adds_any_layout th : adds (fun _ => True) (layout W H n th).
Proof.
  eapply adds_weaken; [|apply adds_fresh_layout]. intros; exact I.
Qed.

Lemma adds_any_decoPass : adds (fun _ => True) (decoPass W H n).
Proof.
  unfold decoPass, decoBlock.
  repeat (adds_step; try exact I).
Qed.

Lemma adds_any_castleTowers startX wwb :
  adds (fun _ => True) (castleTowers H n startX wwb).
Proof.
  unfold castleTowers, castleTower, castleTowerCell, battlement.
  repeat (adds_step; try exact I).
Qed.

Lemma adds_wall_top_row startX wwb :
  adds (topRowBlock H n) (wallRow H n startX wwb (wallHeight n - 1)).
Proof.
  unfold wallRow, wallCell. rewrite Z.eqb_refl.
  repeat (adds_step; try (repeat split; reflexivity)).
Qed.

Lemma adds_bridge gap topYs top :
  minimum topYs = Some top ->
  adds (bridgeBlock n top) (bridge W n gap topYs).
Proof.
  intros Hmin. unfold bridge. rewrite Hmin. unfold bridgeCell.
  repeat (adds_step; try (repeat split; reflexivity)).
Qed.

Lemma towerLoop_length count gap i g :
  length (fst (runState (towerLoop W H n count gap i) g)) = count.
Proof.
  revert i g. induction count as [|count IH]; intros i g; [reflexivity|].
  cbn [towerLoop]. rewrite !runState_bind. simpl. rewrite IH. reflexivity.
Qed.

Lemma floor_r_times g k :
  (0 < k)%Z -> (0 <= floor (fst (runState r g) * k) < k)%Z.
Proof.
  intros Hk. destruct (r_range g) as [H0 H1].
  set (p := fst (runState r g)) in *.
  assert (Hk' : 0 < inject_Z k) by (rewrite Zlt_Qlt in Hk; exact Hk).
  split.
  - change 0%Z with (Qfloor 0). apply Qfloor_resp_le.
    apply Qmult_le_0_compat; [exact H0|apply Qlt_le_weak; exact Hk'].
  - rewrite Zlt_Qlt. eapply Qle_lt_trans; [apply Qfloor_le|].
    setoid_replace (inject_Z k) with (1 * inject_Z k) at 2 by ring.
    apply Qmult_lt_compat_r; assumption.
Qed.

End LayoutFacts.

Section LayoutClaims.

Variables W H : Q.
Variable n : Z.

Lemma castle_blocks_split :
  themeOf W H n = castle ->
  exists lower rest, genBlocks W H n = lower ++ wallTopRow W H n ++ rest.
Proof.
  intros Hth. rewrite genBlocks_eq, Hth. cbn [layout].
  unfold castleTheme, wallTopRow, wallTopRowStart.
  rewrite !runState_bind.
  destruct (runState r (afterThemeRoll n)) as [p1 g1]. cbn [fst snd].
  destruct (runState r g1) as [p2 g2]. cbn [fst snd].
  set (wwb := (10 + floor (p1 * 6))%Z).
  set (startX := baseX W + (p2 * 20 - 10)).
  set (row := wallRow H n startX wwb).
  unfold for_lt at 1.
  pose proof (wallHeight_lower n) as Hwh.
  replace (Z.to_nat (wallHeight n - 0))
    with (Datatypes.S (Z.to_nat (wallHeight n - 1 - 0))) by lia.
  rewrite for_count_last.
  replace (0 + Z.of_nat (Z.to_nat (wallHeight n - 1 - 0)))%Z
    with (wallHeight n - 1)%Z by lia.
  fold (for_lt 0 (wallHeight n - 1) row).
  set (g3 := snd (runState (for_lt 0 (wallHeight n - 1) row) g2)).
  destruct (adds_pushed _ (row (wallHeight n - 1)%Z) g3
              (adds_wall_top_row H n startX wwb)) as [Etop _].
  set (g4 := snd (runState (row (wallHeight n - 1)%Z) g3)) in *.
  destruct (adds_any_castleTowers H n startX wwb g4) as [t [Et _]].
  set (g5 := snd (runState (castleTowers H n startX wwb) g4)) in *.
  destruct (adds_any_decoPass W H n g5) as [d [Ed _]].
  exists (g_blocks g3), (t ++ d).
  rewrite Ed, Et, Etop. rewrite <- !app_assoc. reflexivity.
Qed.

(** C1, as the code has it: in a castle level the blocks pushed by the
    last row of the wall loop (row index [wallHeight - 1]) are a
    segment of the level's blocks, and each of them is a stone block
    at stone's base hit points, 150. *)
Theorem castle_wall_top_row_is_stone :
  themeOf W H n = castle ->
  (exists lower rest, genBlocks W H n = lower ++ wallTopRow W H n ++ rest) /\
  Forall (fun b =>
            Block.mat b = stone /\ Block.hp b = 150 /\ Block.maxHp b = 150 /\
            Block.y b = gy H - ((wallHeight n - 1)%Z + 1) * (bh n + 2))
         (wallTopRow W H n).
Proof.
  intros Hth. split; [apply castle_blocks_split; exact Hth|].
  unfold wallTopRow.
  destruct (wallTopRowStart W H n) as [[startX wwb] g].
  destruct (adds_pushed _ (wallRow H n startX wwb (wallHeight n - 1)) g
              (adds_wall_top_row H n startX wwb)) as [_ Hall].
  eapply Forall_impl; [|exact Hall].
  intros b [Hm [Hhp [Hmax [_ Hy]]]]. repeat split; assumption.
Qed.

Lemma towers_count :
  let towersN := (2 + floor (fst (runState r (afterThemeRoll n)) * 2))%Z in
  (2 <= towersN <= 3)%Z.
Proof.
  pose proof (floor_r_times (afterThemeRoll n) 2 ltac:(lia)) as Hf.
  cbv zeta. change (inject_Z 2) with 2 in Hf. lia.
Qed.

Lemma towers_blocks_split :
  themeOf W H n = towers ->
  exists pre rest, genBlocks W H n = pre ++ bridgeBlocks W H n ++ rest.
Proof.
  intros Hth. rewrite genBlocks_eq, Hth. cbn [layout].
  unfold towersTheme, bridgeBlocks, towersBuilt.
  rewrite !runState_bind.
  pose proof towers_count as Hn. cbv zeta in Hn.
  destruct (runState r (afterThemeRoll n)) as [p g1]. cbn [fst snd] in *.
  set (towersN := (2 + floor (p * 2))%Z) in *.
  set (gap := baseW W / (towersN + 1)).
  destruct (runState (towerLoop W H n (Z.to_nat towersN) gap 0) g1)
    as [hbs g2]. cbn [fst snd].
  assert (Hge : (towersN >=? 2)%Z = true) by lia.
  rewrite Hge.
  set (br := bridge W n gap (map (towerTop H n) hbs)).
  assert (Hbr : adds (fun _ => True) br).
  { unfold br, bridge, bridgeCell. repeat (adds_step; try exact I). }
  destruct (adds_pushed _ br g2 Hbr) as [Ebr _].
  set (g3 := snd (runState br g2)) in *.
  destruct (adds_any_decoPass W H n g3) as [d [Ed _]].
  exists (g_blocks g2), d. rewrite Ed, Ebr, <- app_assoc. reflexivity.
Qed.

Lemma towerHeights_length : (2 <= length (towerHeights W H n) <= 3)%nat.
Proof.
  unfold towerHeights, towersBuilt.
  pose proof towers_count as Hn. cbv zeta in Hn.
  destruct (runState r (afterThemeRoll n)) as [p g1]. cbn [fst snd] in *.
  set (towersN := (2 + floor (p * 2))%Z) in *.
  set (gap := baseW W / (towersN + 1)).
  pose proof (towerLoop_length W H n (Z.to_nat towersN) gap 0 g1) as Hlen.
  destruct (runState (towerLoop W H n (Z.to_nat towersN) gap 0) g1)
    as [hbs g2]. cbn [fst snd] in *.
  lia.
Qed.

Lemma towerTop_antitone h h' :
  towerTop H n h <= towerTop H n h' -> (h' <= h)%Z.
Proof.
  unfold towerTop. intros Hle.
  pose proof bh_range n as [Hbh _]. rewrite Zle_Qle in Hbh.
  change (inject_Z 18) with 18 in Hbh.
  destruct (Z_le_gt_dec h' h) as [Hok|Hgt]; [exact Hok|exfalso].
  assert (Hlt : inject_Z h < inject_Z h') by (rewrite <- Zlt_Qlt; lia).
  assert (Hm : inject_Z h * (bh n + 2) < inject_Z h' * (bh n + 2)).
  { apply Qmult_lt_compat_r; [lra|exact Hlt]. }
  lra.
Qed.

(** C2, as the code has it: in a towers level there are two or three
    towers, and every block of the bridge is placed [bh + 8] above the
    top of a tallest tower (the minimum of [topYs], with y growing
    downwards), so that the bridge lies above the top of every tower,
    the shortest included. *)
Theorem bridge_above_tallest_tower :
  themeOf W H n = towers ->
  (exists pre rest, genBlocks W H n = pre ++ bridgeBlocks W H n ++ rest) /\
  (2 <= length (towerHeights W H n) <= 3)%nat /\
  exists tallest,
    In tallest (towerHeights W H n) /\
    (forall h, In h (towerHeights W H n) -> (h <= tallest)%Z) /\
    Forall (fun b => Block.y b = towerTop H n tallest - (bh n + 8))
           (bridgeBlocks W H n) /\
    (forall h b, In h (towerHeights W H n) -> In b (bridgeBlocks W H n) ->
       Block.y b + Block.h b < towerTop H n h).
Proof.
  intros Hth. split; [apply towers_blocks_split; exact Hth|].
  split; [apply towerHeights_length|].
  pose proof towerHeights_length as Hlen.
  unfold towerHeights, bridgeBlocks in *.
  destruct (towersBuilt W H n) as [[hbs gap] g]. cbn [fst snd] in *.
  destruct (minimum (map (towerTop H n) hbs)) as [top|] eqn:Hmin.
  2:{ destruct hbs; [simpl in Hlen; lia|discriminate]. }
  destruct (minimum_spec _ _ Hmin) as [Hin Hlow].
  apply in_map_iff in Hin. destruct Hin as [tallest [Etop Hin]].
  exists tallest. split; [exact Hin|].
  assert (Hmax : forall h, In h hbs -> (h <= tallest)%Z).
  { intros h Hh. apply towerTop_antitone. rewrite Etop.
    apply Hlow. apply in_map. exact Hh. }
  split; [exact Hmax|].
  destruct (adds_pushed _ (bridge W n gap (map (towerTop H n) hbs)) g
              (adds_bridge W n gap _ top Hmin)) as [_ Hall].
  split.
  - eapply Forall_impl; [|exact Hall].
    intros b [Hy _]. rewrite Etop. exact Hy.
  - intros h b Hh Hb. rewrite Forall_forall in Hall.
    destruct (Hall b Hb) as [Hy [Hbh _]]. rewrite Hy, Hbh.
    assert (Hle : top <= towerTop H n h) by (apply Hlow; apply in_map; exact Hh).
    pose proof bh_range n as [Hbh18 _]. rewrite Zle_Qle in Hbh18.
    change (inject_Z 18) with 18 in Hbh18. lra.
Qed.

End LayoutClaims.

(** ** Finding the first hit by computation *)

Lemma firstHit_isFirstHit bl bs i c :
  firstHit bl bs = Some i -> nth_error bs i = Some c -> isFirstHit bl bs i c.
Proof.
  revert i. induction bs as [|d bs IH]; intros i Hf Hnth; [discriminate|].
  simpl in Hf.
  destruct (negb (Block.alive d) || negb (hits bl d)) eqn:Hd.
  - destruct (firstHit bl bs) as [k|] eqn:Hk; [|discriminate].
    simpl in Hf. injection Hf as <-. simpl in Hnth.
    destruct (IH k eq_refl Hnth) as [Hn [Ha [Hh Hbefore]]].
    repeat split; auto.
    intros j e Hj He. destruct j as [|j]; simpl in He.
    + injection He as <-. apply skipped_iff. exact Hd.
    + apply (Hbefore j); [lia|exact He].
  - injection Hf as <-. simpl in Hnth. injection Hnth as ->.
    apply orb_false_iff in Hd. destruct Hd as [Ha Hh].
    apply negb_false_iff in Ha, Hh.
    repeat split; auto. intros j e Hj. lia.
Qed.

(** ** The claims on concrete inputs *)

(** *** C1 *)

Lemma castle_wall_top_row_is_stone_witness :
  themeOf wideW wideH 1 = castle /\
  Forall (fun b => Block.mat b = stone /\ Block.hp b = 150 /\
                   Block.maxHp b = 150 /\
                   Block.y b =
                     gy wideH - ((wallHeight 1 - 1)%Z + 1) * (bh 1 + 2))
         (wallTopRow wideW wideH 1).
Proof.
  assert (Hth : themeOf wideW wideH 1 = castle) by (vm_compute; reflexivity).
  split; [exact Hth|].
  exact (proj2 (castle_wall_top_row_is_stone wideW wideH 1 Hth)).
Defined.

(** C1 as stated fails at level 1, a castle: the top row of its wall
    holds six blocks, all of stone, and stone (150) is not the toughest
    material, metal (220) is. *)
Lemma castle_top_row_not_toughest :
  themeOf wideW wideH 1 = castle /\
  length (wallTopRow wideW wideH 1) = 6%nat /\
  Forall (fun b => Block.mat b = stone /\
                   hp (materials (Block.mat b)) < hp (materials metal))
         (wallTopRow wideW wideH 1) /\
  ~ topRowToughest wideW wideH 1.
Proof.
  assert (Hrow : map Block.mat (wallTopRow wideW wideH 1)
                 = [stone; stone; stone; stone; stone; stone])
    by (vm_compute; reflexivity).
  split; [vm_compute; reflexivity|].
  split; [rewrite <- (length_map Block.mat), Hrow; reflexivity|].
  assert (Hstone : forall b, In b (wallTopRow wideW wideH 1) -> Block.mat b = stone).
  { intros b Hb.
    assert (Hm : In (Block.mat b) (map Block.mat (wallTopRow wideW wideH 1)))
      by (apply in_map; exact Hb).
    rewrite Hrow in Hm. simpl in Hm. intuition congruence. }
  split.
  - apply Forall_forall. intros b Hb. rewrite (Hstone b Hb). split; reflexivity.
  - unfold topRowToughest. intros Hall.
    rewrite Forall_forall in Hall.
    generalize dependent (wallTopRow wideW wideH 1). intros l Hrow Hstone Hall.
    destruct l as [|b l]; [discriminate|].
    pose proof (Hall b (or_introl eq_refl) metal) as Hb.
    rewrite (Hstone b (or_introl eq_refl)) in Hb.
    apply Qle_not_lt in Hb. apply Hb. reflexivity.
Qed.

(** *** C2 *)

Lemma bridge_above_tallest_tower_witness :
  themeOf wideW wideH 16 = towers /\
  (2 <= length (towerHeights wideW wideH 16) <= 3)%nat.
Proof.
  assert (Hth : themeOf wideW wideH 16 = towers) by (vm_compute; reflexivity).
  split; [exact Hth|].
  exact (proj1 (proj2 (bridge_above_tallest_tower wideW wideH 16 Hth))).
Defined.

(** C2 as stated fails at level 16, a towers level: its towers are 8 and
    6 rows high, and the nine blocks of the bridge sit [bh + 8] above the
    tower of 8 rows, two rows higher than the claim puts them. *)
Lemma bridge_not_above_shortest :
  themeOf wideW wideH 16 = towers /\
  towerHeights wideW wideH 16 = [8; 6]%Z /\
  length (bridgeBlocks wideW wideH 16) = 9%nat /\
  Forall (fun b => Block.y b == towerTop wideH 16 8 - (bh 16 + 8) /\
                   Block.y b + 2 * (bh 16 + 2) ==
                     towerTop wideH 16 6 - (bh 16 + 8))
         (bridgeBlocks wideW wideH 16) /\
  ~ bridgeAboveShortest wideW wideH 16.
Proof.
  assert (Hys : map Block.y (bridgeBlocks wideW wideH 16)
                = repeat (Block.y (hd blockA (bridgeBlocks wideW wideH 16))) 9)
    by (vm_compute; reflexivity).
  assert (Hy0 : Block.y (hd blockA (bridgeBlocks wideW wideH 16))
                == towerTop wideH 16 8 - (bh 16 + 8))
    by (vm_compute; reflexivity).
  assert (Hheights : towerHeights wideW wideH 16 = [8; 6]%Z)
    by (vm_compute; reflexivity).
  assert (Hgap : towerTop wideH 16 8 - (bh 16 + 8) + 2 * (bh 16 + 2)
                 == towerTop wideH 16 6 - (bh 16 + 8))
    by (vm_compute; reflexivity).
  assert (Hne : ~ towerTop wideH 16 8 - (bh 16 + 8)
                  == towerTop wideH 16 6 - (bh 16 + 8))
    by (vm_compute; discriminate).
  assert (Hall : forall b, In b (bridgeBlocks wideW wideH 16) ->
                 Block.y b == towerTop wideH 16 8 - (bh 16 + 8)).
  { intros b Hb. rewrite <- Hy0.
    assert (Hin : In (Block.y b) (map Block.y (bridgeBlocks wideW wideH 16)))
      by (apply in_map; exact Hb).
    rewrite Hys in Hin. apply repeat_spec in Hin. rewrite Hin. reflexivity. }
  assert (Hlen : length (bridgeBlocks wideW wideH 16) = 9%nat).
  { rewrite <- (length_map Block.y), Hys. apply repeat_length. }
  split; [vm_compute; reflexivity|].
  split; [exact Hheights|].
  split; [exact Hlen|].
  split.
  - apply Forall_forall. intros b Hb. split; [apply Hall; exact Hb|].
    rewrite (Hall b Hb). exact Hgap.
  - intros [shortest [Hin [Hmin Hbridge]]].
    rewrite Hheights in Hin, Hmin.
    assert (Hs : shortest = 6%Z).
    { pose proof (Hmin 6%Z ltac:(simpl; auto)).
      simpl in Hin. destruct Hin as [<-|[<-|[]]]; [lia|reflexivity]. }
    subst shortest.
    rewrite Forall_forall in Hbridge.
    clear Hys Hy0.
    generalize dependent (bridgeBlocks wideW wideH 16). intros l Hall Hlen Hbridge.
    destruct l as [|b l]; [discriminate|].
    apply Hne. rewrite <- (Hall b (or_introl eq_refl)).
    apply Hbridge. left. reflexivity.
Qed.

(** *** C3 *)

Lemma out_of_bounds_left_right_bottom_witness :
  ball (wideWith ballRight) = Some ballRight /\
  Ball.alive ballRight = true /\
  wideW + 200 < Ball.x (groundCollision wideH (integrate (math := approxMath) (1 / 30) ballRight)) /\
  noActiveBall (update (math := approxMath) wideW wideH (1 / 30) (wideWith ballRight)) = true.
Proof.
  assert (Hout : wideW + 200 <
                 Ball.x (groundCollision wideH
                           (integrate (math := approxMath) (1 / 30) ballRight)))
    by (vm_compute; reflexivity).
  split; [reflexivity|]. split; [reflexivity|]. split; [exact Hout|].
  apply (out_of_bounds_left_right_bottom (math := approxMath) wideW wideH
           (wideWith ballRight) (1 / 30) ballRight eq_refl eq_refl).
  right. left. exact Hout.
Defined.

(** C3 as stated fails at the top: a projectile 500 above the top edge,
    farther out than the margins of the other three sides, is alive
    after the step. *)
Lemma out_of_bounds_top_stays_alive :
  exists b',
    ball (update (math := approxMath) wideW wideH (1 / 30) (wideWith ballTop))
      = Some b' /\
    Ball.y b' < -500 /\
    Ball.alive b' = true /\
    noActiveBall
      (update (math := approxMath) wideW wideH (1 / 30) (wideWith ballTop))
      = false.
Proof.
  eexists. split; [vm_compute; reflexivity|].
  split; [vm_compute; reflexivity|].
  split; [reflexivity|].
  vm_compute. reflexivity.
Qed.

(** *** C4 *)

Lemma zero_blocks_defined_witness :
  totalBlocks emptyLevelShot = 0%Z /\
  level (update (math := approxMath) wideW wideH (1 / 30) emptyLevelShot) = 2%Z.
Proof.
  split; [reflexivity|].
  destruct (zero_blocks_defined (math := approxMath) wideW wideH
              emptyLevelShot (1 / 30) eq_refl) as [_ [_ [Hadv _]]].
  destruct (Hadv _ eq_refl eq_refl) as [_ [Hl _]].
  exact Hl.
Defined.

(** C4 as stated fails twice on a level without blocks: [syncHud] shows
    0 percent destroyed, not 100, and a frame without a live projectile
    (as after [makeLevel], which removes it) does not advance the
    level. *)
Lemma zero_blocks_no_advance_without_ball :
  totalBlocks emptyLevel = 0%Z /\
  elDestroyed (syncHud emptyLevel) = 0%Z /\
  update (math := approxMath) wideW wideH (1 / 30) emptyLevel = emptyLevel /\
  level (tick (math := approxMath) wideW wideH 16 emptyLevel) = level emptyLevel.
Proof.
  repeat split; reflexivity.
Qed.

(** *** C7 *)
Lemma onUp_while_flying_is_noop_witness :
  ball aimingWhileFlying = Some ballFalling /\
  Ball.alive ballFalling = true /\
  ball (onUp (math := approxMath) wideW wideH aimingWhileFlying) = Some ballFalling /\
  shots (onUp (math := approxMath) wideW wideH aimingWhileFlying) = 1%Z.
Proof.
  split; [reflexivity|]. split; [reflexivity|].
  destruct (onUp_while_flying_is_noop (math := approxMath) wideW wideH
              aimingWhileFlying ballFalling eq_refl eq_refl)
    as [Hb [Hs _]].
  split; [exact Hb|exact Hs].
Defined.


(** *** C6 *)

Lemma hp_invariant_witness :
  reachable (math := approxMath) narrowW narrowH narrowHit /\
  Forall (fun c => Block.alive c = true ->
                   0 < Block.hp c /\ Block.hp c <= Block.maxHp c)
         (blocks narrowHit).
Proof.
  assert (Hr : reachable (math := approxMath) narrowW narrowH narrowHit)
    by apply run_reachable.
  split; [exact Hr|].
  exact (proj1 (hp_invariant (math := approxMath) narrowW narrowH _ Hr)).
Defined.

(** *** C9 *)

Lemma collision_damage_witness :
  reachable (math := approxMath) narrowW narrowH narrowShot /\
  ball narrowShot = Some narrowBall /\
  Ball.alive narrowBall = true /\
  isFirstHit
    (moveBall (math := approxMath) narrowW narrowH (16 / 1000) narrowBall)
    (blocks narrowShot) 17 narrowBlock /\
  exists c',
    nth_error
      (blocks (physics (math := approxMath) narrowW narrowH (16 / 1000)
                 narrowBall narrowShot)) 17 = Some c' /\
    Block.hp c' =
      Block.hp narrowBlock -
      Ball.damage narrowBall *
        (0.35 +
         clamp (len (math := approxMath)
                  (Ball.vx (moveBall (math := approxMath) narrowW narrowH
                              (16 / 1000) narrowBall))
                  (Ball.vy (moveBall (math := approxMath) narrowW narrowH
                              (16 / 1000) narrowBall)) / 1200) 0.0 1.2).
Proof.
  assert (Hr : reachable (math := approxMath) narrowW narrowH narrowShot)
    by apply run_reachable.
  assert (Hb : ball narrowShot = Some narrowBall) by (vm_compute; reflexivity).
  assert (Ha : Ball.alive narrowBall = true) by (vm_compute; reflexivity).
  assert (Hf : isFirstHit
                 (moveBall (math := approxMath) narrowW narrowH (16 / 1000)
                    narrowBall)
                 (blocks narrowShot) 17 narrowBlock).
  { apply firstHit_isFirstHit; vm_compute; reflexivity. }
  repeat (split; [assumption|]).
  exact (proj1 (collision_damage (math := approxMath) narrowW narrowH narrowShot
                  (16 / 1000) narrowBall 17 narrowBlock Hr Hb Ha Hf)).
Defined.

(** *** C10 *)

Lemma block_collision_frame_witness :
  ball twoBlocks = Some ballFalling /\
  Ball.alive ballFalling = true /\
  length (blocks (physics (math := approxMath) wideW wideH (1 / 30) ballFalling twoBlocks)) = 2%nat.
Proof.
  split; [reflexivity|]. split; [reflexivity|].
  exact (proj1 (proj2 (proj2 (block_collision_frame (math := approxMath)
           wideW wideH twoBlocks (1 / 30) ballFalling eq_refl eq_refl)))).
Defined.

(** C10 as stated fails on two neighbouring blocks: the falling
    projectile hits the second block in one step; in the next step it
    is alive, still touches that block, which is alive, and is not
    moved out of it, but the block loop stops at the first block, so
    the second block keeps its hit points. *)
Lemma overlapping_block_not_hit_again :
  let st1 := update (math := approxMath) wideW wideH (1 / 30) twoBlocks in
  let st2 := update (math := approxMath) wideW wideH (1 / 30) st1 in
  exists b1 blockB1,
    ball st1 = Some b1 /\ Ball.alive b1 = true /\
    nth_error (blocks st1) 0 = Some blockA /\
    nth_error (blocks st1) 1 = Some blockB1 /\
    Block.hp blockB1 < Block.hp blockB /\
    Block.alive blockB1 = true /\
    hits (moveBall (math := approxMath) wideW wideH (1 / 30) b1) blockB1 = true /\
    nth_error (blocks st2) 1 = Some blockB1 /\
    level st2 = level twoBlocks.
Proof.
  cbv zeta. eexists. eexists.
  split; [vm_compute; reflexivity|].
  split; [reflexivity|].
  split; [vm_compute; reflexivity|].
  split; [vm_compute; reflexivity|].
  split; [vm_compute; reflexivity|].
  split; [reflexivity|].
  split; [vm_compute; reflexivity|].
  split; vm_compute; reflexivity.
Qed.

(** * Further properties of the code *)

(** ** Clamping *)

Lemma clamp_cases (v a b : Q) :
  (a <= b -> a <= clamp v a b /\ clamp v a b <= b) /\
  (a <= v -> v <= b -> clamp v a b == v) /\
  (b <= a -> clamp v a b == a).
Proof.
  unfold clamp. split; [|split].
  - intros Hab. split; [apply Q.le_max_l|].
    apply Q.max_lub; [exact Hab|apply Q.le_min_l].
  - intros Hav Hvb. rewrite (Q.min_r b v Hvb). apply Q.max_r. exact Hav.
  - intros Hba. apply Q.max_l.
    eapply Qle_trans; [apply Q.le_min_l|exact Hba].
Qed.

(** X1: with ordered bounds [clamp] lands between them and leaves a
    value that is already between them as it is; with crossed bounds it
    answers the lower one, whatever the value. *)
Theorem clamp_between (v a b : Q) :
  (a <= b -> a <= clamp v a b /\ clamp v a b <= b) /\
  (a <= v -> v <= b -> clamp v a b == v) /\
  (b <= a -> clamp v a b == a).
Proof.
  destruct (clamp_cases v a b) as [Hrange [Hinside Hcrossed]].
  split; [exact Hrange|]. split; [exact Hinside|exact Hcrossed].
Qed.

Lemma clamp_between_witness :
  (0 <= clamp 200 0 160 /\ clamp 200 0 160 <= 160) /\
  clamp 100 0 160 == 100 /\
  clamp 7 4 3 == 4.
Proof.
  split; [apply (proj1 (clamp_between 200 0 160)); discriminate|].
  split; [apply (proj1 (proj2 (clamp_between 100 0 160))); discriminate|].
  apply (proj2 (proj2 (clamp_between 7 4 3))). discriminate.
Defined.

(** ** The random stream *)


Lemma r_state g : s (snd (runState r g)) = lcgNext (s g).
Proof. reflexivity. Qed.

Lemma r_value g : fst (runState r g) = inject_Z (lcgNext (s g)) / 4294967296.
Proof. reflexivity. Qed.

Lemma lcgNext_inverse x :
  (0 <= x < 4294967296)%Z ->
  ((4276115653 * (lcgNext x - 1013904223)) mod 4294967296 = x)%Z.
Proof.
  intros Hx. unfold lcgNext.
  rewrite (Z.mod_eq (1664525 * x + 1013904223) 4294967296) by lia.
  set (q := ((1664525 * x + 1013904223) / 4294967296)%Z).
  replace (4276115653 * (1664525 * x + 1013904223 - 4294967296 * q - 1013904223))%Z
    with (x + (1657219 * x - 4276115653 * q) * 4294967296)%Z by lia.
  rewrite Z.mod_add by lia. apply Z.mod_small. exact Hx.
Qed.

(** X2: a call of the random stream leaves a 32-bit state and answers a
    number in [0, 1) that names that state ([value * 2^32]); two
    different 32-bit states never lead to the same next state, so the
    stream never merges. *)
Theorem random_stream_step (g1 g2 : gen) :
  (0 <= s g1 < 4294967296)%Z -> (0 <= s g2 < 4294967296)%Z ->
  (0 <= s (snd (runState r g1)) < 4294967296)%Z /\
  0 <= fst (runState r g1) /\ fst (runState r g1) < 1 /\
  fst (runState r g1) * 4294967296 == inject_Z (s (snd (runState r g1))) /\
  g_blocks (snd (runState r g1)) = g_blocks g1 /\
  (s (snd (runState r g1)) = s (snd (runState r g2)) -> s g1 = s g2).
Proof.
  intros H1 H2.
  destruct (r_range g1) as [Hlo Hhi].
  rewrite !r_state, r_value.
  split; [unfold lcgNext; apply Z.mod_pos_bound; lia|].
  rewrite r_value in Hlo, Hhi.
  split; [exact Hlo|]. split; [exact Hhi|].
  split; [field|]. split; [reflexivity|].
  intros Heq.
  rewrite <- (lcgNext_inverse (s g1) H1), <- (lcgNext_inverse (s g2) H2), Heq.
  reflexivity.
Qed.

Lemma random_stream_step_witness :
  (0 <= s (gen0 1) < 4294967296)%Z /\ (0 <= s (gen0 2) < 4294967296)%Z /\
  fst (runState r (gen0 1)) < 1.
Proof.
  assert (H1 : (0 <= s (gen0 1) < 4294967296)%Z) by (vm_compute; split; [discriminate|reflexivity]).
  assert (H2 : (0 <= s (gen0 2) < 4294967296)%Z) by (vm_compute; split; [discriminate|reflexivity]).
  split; [exact H1|]. split; [exact H2|].
  exact (proj1 (proj2 (proj2 (random_stream_step (gen0 1) (gen0 2) H1 H2)))).
Defined.



(** ** Difficulty parameters *)

Lemma floor_mono_scaled (c : Q) (n n' : Z) :
  0 <= c -> (n <= n')%Z -> (floor (n * c) <= floor (n' * c))%Z.
Proof.
  intros Hc Hn. apply Qfloor_resp_le.
  apply Qmult_le_compat_r; [|exact Hc]. rewrite <- Zle_Qle. exact Hn.
Qed.

(** X4: whatever the level index, the generator works with 3 to 9
    floors, a density between 0.55 and 0.85, blocks 26 to 44 wide and 18
    to 28 high and a wall of 3 to [floors] rows; and a higher level
    never has fewer floors, a lower density, larger blocks or a lower
    wall. *)
Theorem difficulty_parameters (n n' : Z) :
  (n <= n')%Z ->
  ((3 <= floors n <= 9)%Z /\ 0.55 <= density n /\ density n <= 0.85 /\
   (26 <= bw n <= 44)%Z /\ (18 <= bh n <= 28)%Z /\
   (3 <= wallHeight n <= floors n)%Z) /\
  ((floors n <= floors n')%Z /\ density n <= density n' /\
   (bw n' <= bw n)%Z /\ (bh n' <= bh n)%Z /\
   (wallHeight n <= wallHeight n')%Z).
Proof.
  intros Hn.
  pose proof (floor_mono_scaled 0.35 n n' ltac:(discriminate) Hn) as H35.
  pose proof (floor_mono_scaled 0.4 n n' ltac:(discriminate) Hn) as H40.
  pose proof (floor_mono_scaled 0.25 n n' ltac:(discriminate) Hn) as H25.
  pose proof (floor_mono_scaled 0.18 n n' ltac:(discriminate) Hn) as H18.
  assert (Hd : 0.55 <= density n /\ density n <= 0.85).
  { unfold density, clamp. split; [apply Q.le_max_l|].
    apply Q.max_lub; [discriminate|apply Q.le_min_l]. }
  split.
  - unfold wallHeight, floors, bw, bh, clampZ in *.
    repeat split; try apply Hd; lia.
  - unfold wallHeight, floors, bw, bh, clampZ in *.
    repeat split; try lia.
    unfold density. apply clamp_mono.
    rewrite Zle_Qle in Hn. lra.
Qed.

Lemma difficulty_parameters_witness :
  (1 <= 30)%Z /\ (floors 1 <= floors 30)%Z /\ (bw 30 <= bw 1)%Z.
Proof.
  assert (Hn : (1 <= 30)%Z) by lia.
  split; [exact Hn|].
  destruct (difficulty_parameters 1 30 Hn) as [_ [Hf [_ [Hw _]]]].
  split; [exact Hf|exact Hw].
Defined.

(** ** The material mix *)

Lemma pickMat_run n g :
  runState (pickMat n) g = (matFor n (fst (runState r g)), snd (runState r g)).
Proof.
  unfold pickMat. rewrite runState_bind. unfold matFor.
  repeat (match goal with |- context [if ?c then _ else _] => destruct c end);
    reflexivity.
Qed.

Lemma toughness_t_mono (n n' : Z) :
  (n <= n')%Z -> clamp (n / 18) 0 1 <= clamp (n' / 18) 0 1.
Proof.
  intros Hn. apply clamp_mono. rewrite Zle_Qle in Hn.
  unfold Qdiv. apply Qmult_le_compat_r; [exact Hn|discriminate].
Qed.

(** X5: [pickMat] takes exactly one number from the random stream; it
    answers glass exactly when that number is below 0.10, at every
    level; and for the same number a higher level never answers a
    material of fewer hit points. *)
Theorem pickMat_tougher_with_level (n n' : Z) (g : gen) :
  (n <= n')%Z ->
  snd (runState (pickMat n) g) = snd (runState r g) /\
  (fst (runState (pickMat n) g) = glass <-> fst (runState r g) < 0.10) /\
  hp (materials (fst (runState (pickMat n) g))) <=
  hp (materials (fst (runState (pickMat n') g))).
Proof.
  intros Hn. rewrite !pickMat_run. cbn [fst snd].
  pose proof (toughness_t_mono n n' Hn) as Ht.
  pose proof (clamp_cases (n / 18) 0 1) as [Hr _].
  specialize (Hr ltac:(discriminate)).
  pose proof (clamp_cases (n' / 18) 0 1) as [Hr' _].
  specialize (Hr' ltac:(discriminate)).
  set (p := fst (runState r g)).
  unfold matFor.
  set (t := clamp (n / 18) 0 1) in *. set (t' := clamp (n' / 18) 0 1) in *.
  split; [reflexivity|]. split.
  - destruct (p <? 0.10) eqn:E1.
    + apply Qltb_lt in E1. tauto.
    + apply Qltb_ge in E1.
      split; [|intros Hlt; lra].
      destruct (p <? 0.58 - 0.18 * t); [discriminate|].
      destruct (p <? 0.90 - 0.10 * t); discriminate.
  - destruct (p <? 0.10) eqn:E1; [apply Qle_refl|].
    destruct (p <? 0.58 - 0.18 * t) eqn:E2;
      destruct (p <? 0.58 - 0.18 * t') eqn:E2';
      destruct (p <? 0.90 - 0.10 * t) eqn:E3;
      destruct (p <? 0.90 - 0.10 * t') eqn:E3';
      cbn; try discriminate;
      repeat match goal with
             | E : (_ <? _) = true |- _ => apply Qltb_lt in E
             | E : (_ <? _) = false |- _ => apply Qltb_ge in E
             end; exfalso; lra.
Qed.

Lemma pickMat_tougher_with_level_witness :
  (1 <= 18)%Z /\
  hp (materials (fst (runState (pickMat 1) (gen0 1)))) <=
  hp (materials (fst (runState (pickMat 18) (gen0 1)))).
Proof.
  assert (Hn : (1 <= 18)%Z) by lia.
  split; [exact Hn|].
  exact (proj2 (proj2 (pickMat_tougher_with_level 1 18 (gen0 1) Hn))).
Defined.

(** ** Shape and place of the generated blocks *)

Lemma adds_bind_post {A B} (P : Block.t -> Prop) (Q : A -> Prop)
    (m : Gen A) (f : A -> Gen B) :
  adds P m -> (forall g, Q (fst (runState m g))) ->
  (forall a, Q a -> adds P (f a)) -> adds P (bind m f).
Proof.
  intros Hm HQ Hf g. rewrite runState_bind.
  destruct (Hm g) as [l1 [E1 F1]].
  destruct (Hf (fst (runState m g)) (HQ g) (snd (runState m g))) as [l2 [E2 F2]].
  exists (l1 ++ l2). rewrite E2, E1, app_assoc. split; [reflexivity|].
  apply Forall_app. split; assumption.
Qed.

Lemma adds_bind_r {B} (P : Block.t -> Prop) (f : Q -> Gen B) :
  (forall p, 0 <= p -> p < 1 -> adds P (f p)) -> adds P (bind r f).
Proof.
  intros Hf. apply adds_bind_post with (Q := fun p => 0 <= p /\ p < 1).
  - apply adds_r.
  - apply r_range.
  - intros p [H0 H1]. apply Hf; assumption.
Qed.

Lemma adds_for_count_from (P : Block.t -> Prop) count i body :
  (forall j, (i <= j)%Z -> adds P (body j)) -> adds P (for_count count i body).
Proof.
  revert i. induction count as [|count IH]; intros i Hbody; cbn [for_count].
  - apply adds_ret.
  - apply adds_bind; [apply Hbody; lia|]. intros _. apply IH.
    intros j Hj. apply Hbody. lia.
Qed.

Lemma adds_for_lt_from (P : Block.t -> Prop) lo hi body :
  (forall j, (lo <= j)%Z -> adds P (body j)) -> adds P (for_lt lo hi body).
Proof. apply adds_for_count_from. Qed.

Lemma floor_nonneg (v : Q) : 0 <= v -> (0 <= floor v)%Z.
Proof.
  intros Hv. change 0%Z with (Qfloor 0). apply Qfloor_resp_le. exact Hv.
Qed.

Section Placement.

Variables W H : Q.
Variable n : Z.

Lemma bw_bh_Q :
  26 <= inject_Z (bw n) /\ inject_Z (bw n) <= 44 /\
  18 <= inject_Z (bh n) /\ inject_Z (bh n) <= 28.
Proof.
  assert (Hw : (26 <= bw n <= 44)%Z) by (unfold bw; apply clampZ_bounds; lia).
  pose proof (bh_range n) as Hh.
  destruct Hw as [Hw1 Hw2]. destruct Hh as [Hh1 Hh2].
  rewrite Zle_Qle in Hw1, Hw2, Hh1, Hh2. tauto.
Qed.

(** A block of height [hh] standing on row [m - 1] of the grid. *)
Lemma on_grid_row (m hh : Q) :
  1 <= m -> hh <= bh n ->
  gy H - m * (bh n + 2) + hh <= groundY H - 2.
Proof.
  intros Hm Hhh. destruct bw_bh_Q as [_ [_ [Hb _]]].
  assert (Hp : 1 * (bh n + 2) <= m * (bh n + 2)).
  { apply Qmult_le_compat_r; [exact Hm|lra]. }
  unfold gy. lra.
Qed.

Lemma wellPlaced_cell (x : Q) (y : Z) mat :
  (0 <= y)%Z ->
  adds (wellPlaced H n)
    (addBlock x (gy H - (y + 1) * (bh n + 2)) (bw n) (bh n) mat).
Proof.
  intros Hy. apply adds_addBlock. unfold wellPlaced. cbn [Block.w Block.h Block.y].
  destruct bw_bh_Q as [Hw1 [Hw2 [Hh1 Hh2]]].
  rewrite Zle_Qle in Hy. change (inject_Z 0) with 0 in Hy.
  repeat split; try lra.
  apply on_grid_row; lra.
Qed.

Lemma wellPlaced_castle : adds (wellPlaced H n) (castleTheme W H n).
Proof.
  pose proof (wallHeight_lower n) as Hwh.
  unfold castleTheme, wallRow, wallCell.
  apply adds_bind_r; intros p1 _ _. apply adds_bind_r; intros p2 _ _.
  apply adds_bind.
  - apply adds_for_lt_from; intros y Hy. apply adds_for_lt_from; intros x _.
    apply adds_bind_r; intros p _ _.
    destruct (p >? density n); [apply adds_ret|].
    apply adds_bind; [destruct (y =? wallHeight n - 1)%Z;
                      [apply adds_ret|apply adds_pickMat]|].
    intros mat. apply wellPlaced_cell. exact Hy.
  - intros _. unfold castleTowers, castleTower, castleTowerCell, battlement.
    apply adds_bind_r; intros p Hp0 Hp1.
    assert (Hf : (0 <= floor (p * 3))%Z).
    { apply floor_nonneg. apply Qmult_le_0_compat; [exact Hp0|discriminate]. }
    assert (Htower : forall tx,
              adds (wellPlaced H n)
                (for_lt 0 (wallHeight n + 2 + floor (p * 3))
                   (fun y => for_lt 0 towerW
                      (fun x =>
                         p0 <- r ;;
                         (if p0 >? density n + 0.05 then ret tt
                          else addBlock (tx + x * (bw n + 2))
                                 (gy H - (y + 1) * (bh n + 2))
                                 (bw n) (bh n) stone))) ;;
                 for_lt 0 towerW
                   (fun i =>
                      p0 <- r ;;
                      (if p0 >? 0.65 then ret tt
                       else addBlock (tx + i * (bw n + 2))
                              (gy H - ((wallHeight n + 2 + floor (p * 3))%Z + 1)
                                      * (bh n + 2))
                              (bw n) (bh n * 0.7) wood)))).
    { intros tx. apply adds_bind.
      - apply adds_for_lt_from; intros y Hy. apply adds_for_lt_from; intros x _.
        apply adds_bind_r; intros p0 _ _.
        destruct (p0 >? _); [apply adds_ret|]. apply wellPlaced_cell. exact Hy.
      - intros _. apply adds_for_lt_from; intros i _.
        apply adds_bind_r; intros p0 _ _.
        destruct (p0 >? _); [apply adds_ret|].
        apply adds_addBlock. unfold wellPlaced. cbn [Block.w Block.h Block.y].
        destruct bw_bh_Q as [Hw1 [Hw2 [Hh1 Hh2]]].
        repeat split; try lra.
        apply on_grid_row; [|lra].
        assert (Hz : (0 <= wallHeight n + 2 + floor (p * 3))%Z) by lia.
        rewrite Zle_Qle in Hz. change (inject_Z 0) with 0 in Hz. lra. }
    apply adds_bind; [apply Htower|]. intros _. apply Htower.
Qed.

Lemma wellPlaced_city : adds (wellPlaced H n) (cityTheme W H n).
Proof.
  unfold cityTheme, cityBuilding, cityCell.
  apply adds_bind_r; intros p _ _.
  apply adds_for_lt_from; intros b _.
  apply adds_bind_r; intros p1 _ _. apply adds_bind_r; intros p2 _ _.
  apply adds_bind_r; intros p3 _ _.
  apply adds_for_lt_from; intros y Hy. apply adds_for_lt_from; intros x _.
  apply adds_bind_r; intros p0 _ _.
  destruct (p0 >? density n); [apply adds_ret|].
  apply adds_bind; [apply adds_pickMat|]. intros mat.
  apply wellPlaced_cell. exact Hy.
Qed.

Lemma towerLoop_heights count gap i g :
  Forall (fun h => (4 <= h)%Z) (fst (runState (towerLoop W H n count gap i) g)).
Proof.
  revert i g. induction count as [|count IH]; intros i g; [constructor|].
  cbn [towerLoop]. rewrite !runState_bind. cbn [ret Monad_state runState fst].
  constructor; [|apply IH].
  unfold tower. rewrite !runState_bind. cbn [ret Monad_state runState fst].
  unfold clampZ. lia.
Qed.

Lemma wellPlaced_towerLoop count gap i :
  adds (wellPlaced H n) (towerLoop W H n count gap i).
Proof.
  revert i. induction count as [|count IH]; intros i; cbn [towerLoop].
  - apply adds_ret.
  - apply adds_bind.
    + unfold tower, towerCell.
      apply adds_bind_r; intros p1 _ _. apply adds_bind_r; intros p2 _ _.
      apply adds_bind; [|intros _; apply adds_ret].
      apply adds_for_lt_from; intros y Hy. apply adds_for_lt_from; intros x _.
      apply adds_bind_r; intros p0 _ _.
      destruct (p0 >? _); [apply adds_ret|].
      apply adds_bind; [apply adds_pickMat|]. intros mat.
      apply wellPlaced_cell. exact Hy.
    + intros hb. apply adds_bind; [apply IH|]. intros hbs. apply adds_ret.
Qed.

Lemma wellPlaced_towers : adds (wellPlaced H n) (towersTheme W H n).
Proof.
  unfold towersTheme.
  apply adds_bind_r; intros p _ _.
  apply adds_bind_post with (Q := Forall (fun h => (4 <= h)%Z)).
  - apply wellPlaced_towerLoop.
  - apply towerLoop_heights.
  - intros hbs Hhbs. destruct (_ >=? 2)%Z; [|apply adds_ret].
    unfold bridge.
    destruct (minimum (map (towerTop H n) hbs)) as [top|] eqn:Hmin;
      [|apply adds_ret].
    destruct (minimum_spec _ _ Hmin) as [Hin _].
    apply in_map_iff in Hin. destruct Hin as [h [Etop Hh]].
    rewrite Forall_forall in Hhbs. specialize (Hhbs h Hh).
    apply adds_bind_r; intros p0 _ _.
    apply adds_for_lt_from; intros i _. unfold bridgeCell.
    apply adds_bind_r; intros p1 _ _.
    destruct (p1 >? 0.75); [apply adds_ret|].
    apply adds_addBlock. unfold wellPlaced. cbn [Block.w Block.h Block.y].
    destruct bw_bh_Q as [Hw1 [Hw2 [Hh1 Hh2]]].
    repeat split; try lra.
    rewrite <- Etop. unfold towerTop, gy.
    rewrite Zle_Qle in Hhbs. change (inject_Z 4) with 4 in Hhbs.
    pose proof (on_grid_row h 0 ltac:(lra) ltac:(lra)) as Hrow.
    unfold gy in Hrow. lra.
Qed.

Lemma wellPlaced_deco : adds (wellPlaced H n) (decoPass W H n).
Proof.
  unfold decoPass, decoBlock.
  apply adds_bind_r; intros p _ _.
  apply adds_for_lt_from; intros i _.
  apply adds_bind_r; intros p0 _ _.
  destruct (p0 >? 0.55); [apply adds_ret|].
  apply adds_bind_r; intros p1 _ _.
  apply adds_bind_r; intros p2 Hp2 _.
  apply adds_bind_r; intros p3 _ _.
  apply adds_addBlock. unfold wellPlaced. cbn [Block.w Block.h Block.y].
  destruct bw_bh_Q as [Hw1 [Hw2 [Hh1 Hh2]]].
  repeat split; try lra.
  apply on_grid_row; [|lra].
  assert (Hfl : (3 <= floors n)%Z) by (unfold floors, clampZ; lia).
  assert (Hk : (0 <= floor (p2 * (floors n + 1)%Z))%Z).
  { apply floor_nonneg. apply Qmult_le_0_compat; [exact Hp2|].
    change 0 with (inject_Z 0). rewrite <- Zle_Qle. lia. }
  change 1 with (inject_Z 1). rewrite <- Zle_Qle. lia.
Qed.

Lemma wellPlaced_generate : adds (wellPlaced H n) (generate W H n).
Proof.
  unfold generate.
  apply adds_bind_r; intros p _ _.
  apply adds_bind.
  - destruct (pickTheme p); cbn [layout];
      [apply wellPlaced_castle|apply wellPlaced_city|apply wellPlaced_towers].
  - intros _. apply adds_bind; [apply wellPlaced_deco|].
    intros _. apply adds_ret.
Qed.

Lemma genBlocks_wellPlaced : Forall (wellPlaced H n) (genBlocks W H n).
Proof.
  unfold genBlocks, execState.
  destruct (wellPlaced_generate (gen0 n)) as [l [E F]].
  rewrite E. exact F.
Qed.

End Placement.

(** X6: [makeLevel(n)] keeps the level index, the aim gesture and the
    frame clock, clears the shot counter and the projectile, and counts
    the blocks it made; each of these blocks is alive at the full hit
    points of its material, has a positive size no larger than a grid
    cell of the level, and ends at least 2 above the ground. *)
Theorem makeLevel_fresh_level (W H : Q) (n : Z) (st : state) :
  level (makeLevel W H n st) = level st /\
  aiming (makeLevel W H n st) = aiming st /\
  aimStart (makeLevel W H n st) = aimStart st /\
  aimNow (makeLevel W H n st) = aimNow st /\
  last (makeLevel W H n st) = last st /\
  shots (makeLevel W H n st) = 0%Z /\
  ball (makeLevel W H n st) = None /\
  totalBlocks (makeLevel W H n st) =
    Z.of_nat (length (blocks (makeLevel W H n st))) /\
  aliveCount (blocks (makeLevel W H n st)) = totalBlocks (makeLevel W H n st) /\
  Forall (fun b =>
            Block.alive b = true /\
            Block.hp b = hp (materials (Block.mat b)) /\
            Block.maxHp b = hp (materials (Block.mat b)) /\
            0 < Block.w b /\ Block.w b <= bw n /\
            0 < Block.h b /\ Block.h b <= bh n /\
            Block.y b + Block.h b <= groundY H - 2)
         (blocks (makeLevel W H n st)).
Proof.
  cbn [makeLevel level aiming aimStart aimNow last shots ball totalBlocks blocks].
  repeat (split; [reflexivity|]).
  pose proof (genBlocks_fresh W H n) as Hf.
  pose proof (genBlocks_wellPlaced W H n) as Hw.
  split.
  - unfold aliveCount. f_equal.
    induction Hf as [|b l [Ha _] _ IH]; [reflexivity|].
    simpl. rewrite Ha. simpl. f_equal. apply IH.
    inversion Hw; assumption.
  - rewrite Forall_forall in *. intros b Hb.
    destruct (Hf b Hb) as [Ha [Hhp Hmax]].
    destruct (Hw b Hb) as [H1 [H2 [H3 [H4 H5]]]].
    repeat split; assumption.
Qed.

(** ** Circle against rectangle *)

Lemma square_le (u w : Q) :
  (0 <= u /\ u <= w) \/ (w <= u /\ u <= 0) -> u * u <= w * w.
Proof.
  intros [[H0 Huw]|[Hwu H0]].
  - apply Qmult_le_compat_nonneg; split; assumption.
  - setoid_replace (u * u) with ((- u) * (- u)) by ring.
    setoid_replace (w * w) with ((- w) * (- w)) by ring.
    apply Qmult_le_compat_nonneg; split; lra.
Qed.

Lemma clamp_nearest (c v a b : Q) :
  a <= b -> a <= v -> v <= b ->
  (c - clamp c a b) * (c - clamp c a b) <= (c - v) * (c - v).
Proof.
  intros Hab Hav Hvb. unfold clamp.
  destruct (Qmin_cases b c) as [[-> Hbc]|[-> Hcb]].
  - rewrite (Q.max_r a b Hab). apply square_le. left. lra.
  - destruct (Qlt_le_dec c a) as [Hca|Hac].
    + rewrite (Q.max_l a c (Qlt_le_weak _ _ Hca)). apply square_le. right. lra.
    + rewrite (Q.max_r a c Hac).
      setoid_replace (c - c) with 0 by ring.
      destruct (Qlt_le_dec (c - v) 0) as [Hn|Hp].
      * apply square_le. right. lra.
      * apply square_le. left. lra.
Qed.

(** X7: for a rectangle of non-negative width and height,
    [circleRectCollision] reports a hit exactly when some point of the
    rectangle lies within distance [r] of the centre; the closest point
    it reports lies in the rectangle. *)
Theorem circleRectCollision_exact (cx cy rad : Q) (rect : Block.t) :
  0 <= Block.w rect -> 0 <= Block.h rect ->
  (hit (circleRectCollision cx cy rad rect) = true <->
   exists qx qy,
     Block.x rect <= qx /\ qx <= Block.x rect + Block.w rect /\
     Block.y rect <= qy /\ qy <= Block.y rect + Block.h rect /\
     (cx - qx) * (cx - qx) + (cy - qy) * (cy - qy) <= rad * rad) /\
  Block.x rect <= closestX (circleRectCollision cx cy rad rect) /\
  closestX (circleRectCollision cx cy rad rect) <= Block.x rect + Block.w rect /\
  Block.y rect <= closestY (circleRectCollision cx cy rad rect) /\
  closestY (circleRectCollision cx cy rad rect) <= Block.y rect + Block.h rect.
Proof.
  intros Hw Hh.
  assert (Hxb : Block.x rect <= Block.x rect + Block.w rect) by lra.
  assert (Hyb : Block.y rect <= Block.y rect + Block.h rect) by lra.
  destruct (clamp_cases cx (Block.x rect) (Block.x rect + Block.w rect))
    as [Hcx _].
  destruct (clamp_cases cy (Block.y rect) (Block.y rect + Block.h rect))
    as [Hcy _].
  specialize (Hcx Hxb). specialize (Hcy Hyb).
  unfold circleRectCollision. cbn [hit closestX closestY].
  split; [|tauto].
  rewrite Qle_bool_iff. split.
  - intros Hd. eexists. eexists.
    repeat split; [apply Hcx|apply Hcx|apply Hcy|apply Hcy|exact Hd].
  - intros [qx [qy [Hx1 [Hx2 [Hy1 [Hy2 Hd]]]]]].
    pose proof (clamp_nearest cx qx _ _ Hxb Hx1 Hx2).
    pose proof (clamp_nearest cy qy _ _ Hyb Hy1 Hy2).
    lra.
Qed.

Lemma circleRectCollision_exact_witness :
  0 <= Block.w blockA /\ 0 <= Block.h blockA /\
  Block.x blockA <= closestX (circleRectCollision 153 78 14.25 blockA).
Proof.
  assert (Hw : 0 <= Block.w blockA) by discriminate.
  assert (Hh : 0 <= Block.h blockA) by discriminate.
  split; [exact Hw|]. split; [exact Hh|].
  exact (proj1 (proj2 (circleRectCollision_exact 153 78 14.25 blockA Hw Hh))).
Defined.

(** ** Shots *)

Section Shots.

Context {math : MathLib}.
Variables W H : Q.

Lemma fire_projectile (fromX fromY toX toY : Q) (st : state) (b : Ball.t) :
  0 <= powerMult st ->
  ball (fire fromX fromY toX toY st) = Some b ->
  Ball.x b = fromX /\ Ball.y b = fromY /\
  Ball.alive b = true /\ Ball.traveled b = 0 /\
  14 <= Ball.r b /\ Ball.r b <= 22 /\
  120 * powerMult st <= Ball.damage b /\
  Ball.damage b <= 344 * powerMult st.
Proof.
  intros Hp Hb. cbn [fire ball] in Hb. injection Hb as <-.
  cbn [Ball.x Ball.y Ball.alive Ball.traveled Ball.r Ball.damage].
  destruct (clamp_cases (14 + level st * 0.25) 14 22) as [Hr _].
  specialize (Hr ltac:(discriminate)).
  destruct (clamp_cases (len (fromX - toX) (fromY - toY)) 0 160) as [Hd _].
  specialize (Hd ltac:(discriminate)).
  set (drag := clamp (len (fromX - toX) (fromY - toY)) 0 160) in *.
  repeat split; try reflexivity; try apply Hr.
  - apply Qmult_le_compat_r; [lra|exact Hp].
  - apply Qmult_le_compat_r; [lra|exact Hp].
Qed.

(** X8: whatever [Math.hypot], [Math.atan2], [Math.cos] and [Math.sin]
    answer, [fire] puts a live projectile with no path behind it at the
    launch point, with a radius between 14 and 22, counts one more shot
    and leaves the level as it is; with a non-negative power multiplier
    the damage potential lies between 120 and 344 times that
    multiplier. *)
Theorem fire_bounds (fromX fromY toX toY : Q) (st : state) :
  0 <= powerMult st ->
  exists b,
    ball (fire fromX fromY toX toY st) = Some b /\
    Ball.x b = fromX /\ Ball.y b = fromY /\
    Ball.alive b = true /\ Ball.traveled b = 0 /\
    14 <= Ball.r b /\ Ball.r b <= 22 /\
    120 * powerMult st <= Ball.damage b /\
    Ball.damage b <= 344 * powerMult st /\
    shots (fire fromX fromY toX toY st) = (shots st + 1)%Z /\
    level (fire fromX fromY toX toY st) = level st /\
    powerMult (fire fromX fromY toX toY st) = powerMult st /\
    blocks (fire fromX fromY toX toY st) = blocks st /\
    totalBlocks (fire fromX fromY toX toY st) = totalBlocks st.
Proof.
  intros Hp. eexists. split; [reflexivity|].
  pose proof (fire_projectile fromX fromY toX toY st _ Hp eq_refl)
    as [H1 [H2 [H3 [H4 [H5 [H6 [H7 H8]]]]]]].
  repeat split; assumption.
Qed.

(** X9: with no live projectile, pressing at [p], dragging to [q] and
    releasing fires exactly one shot from the cannon, aimed with the
    last point of the drag; the gesture is over, the blocks and the
    level are untouched, and a second release changes nothing. *)
Theorem drag_and_release_fires_once (p q : point) (st : state) :
  noActiveBall st = true ->
  handle W H Up (handle W H (Move q) (handle W H (Down p) st)) =
    fire (px (cannonPos W H)) (py (cannonPos W H)) (px q) (py q)
         (set_aim false p q st) /\
  (exists b,
     ball (handle W H Up (handle W H (Move q) (handle W H (Down p) st)))
       = Some b /\
     Ball.alive b = true /\
     Ball.x b = W * 0.14 /\ Ball.y b = H * 0.83 - 12) /\
  shots (handle W H Up (handle W H (Move q) (handle W H (Down p) st)))
    = (shots st + 1)%Z /\
  aiming (handle W H Up (handle W H (Move q) (handle W H (Down p) st)))
    = false /\
  blocks (handle W H Up (handle W H (Move q) (handle W H (Down p) st)))
    = blocks st /\
  level (handle W H Up (handle W H (Move q) (handle W H (Down p) st)))
    = level st /\
  handle W H Up
    (handle W H Up (handle W H (Move q) (handle W H (Down p) st))) =
  handle W H Up (handle W H (Move q) (handle W H (Down p) st)).
Proof.
  intros Hidle.
  assert (E : handle W H Up (handle W H (Move q) (handle W H (Down p) st)) =
              fire (px (cannonPos W H)) (py (cannonPos W H)) (px q) (py q)
                (set_aim false p q st)).
  { cbn [handle]. unfold onUp, onMove, onDown. cbn.
    unfold noActiveBall in *. cbn. rewrite Hidle. reflexivity. }
  rewrite E. split; [reflexivity|].
  split; [eexists; repeat split; reflexivity|].
  repeat split.
Qed.

(** X10: events outside a gesture are ignored: with [aiming] off, a
    move and a release leave the state as it is; and after any release
    [aiming] is off, so a release right after a release does nothing. *)
Theorem stray_events_ignored (p : point) (st : state) :
  (aiming st = false -> onMove p st = st /\ onUp W H st = st) /\
  aiming (onUp W H st) = false /\
  onUp W H (onUp W H st) = onUp W H st.
Proof.
  assert (Hoff : aiming (onUp W H st) = false).
  { unfold onUp. destruct (aiming st) eqn:Ha; cbn; [|exact Ha].
    destruct (noActiveBall _); reflexivity. }
  split; [|split; [exact Hoff|]].
  - intros Ha. unfold onMove, onUp. rewrite Ha. split; reflexivity.
  - unfold onUp at 1. rewrite Hoff. reflexivity.
Qed.

(** X11: a projectile that is not alive, or no projectile, stays so
    through every event except the release of a gesture: only a shot
    brings a live projectile. *)
Theorem inert_until_next_shot (e : event) (st : state) :
  noActiveBall st = true ->
  noActiveBall (handle W H e st) = true \/ (e = Up /\ aiming st = true).
Proof.
  intros Hidle. destruct e as [p|p| | |now]; cbn [handle].
  - left. exact Hidle.
  - left. unfold onMove. destruct (negb (aiming st)); exact Hidle.
  - destruct (aiming st) eqn:Ha; [right; split; reflexivity|].
    left. unfold onUp. rewrite Ha. exact Hidle.
  - left. reflexivity.
  - left. unfold tick. rewrite update_idle; exact Hidle.
Qed.

End Shots.

Lemma fire_bounds_witness :
  0 <= powerMult twoBlocks /\
  exists b,
    ball (fire (math := approxMath) 179 585 100 700 twoBlocks) = Some b /\
    14 <= Ball.r b /\ Ball.damage b <= 344 * powerMult twoBlocks.
Proof.
  assert (Hp : 0 <= powerMult twoBlocks) by discriminate.
  split; [exact Hp|].
  destruct (fire_bounds (math := approxMath) 179 585 100 700 twoBlocks Hp)
    as [b [Hb [_ [_ [_ [_ [Hr [_ [_ [Hd _]]]]]]]]]].
  exists b. repeat split; assumption.
Defined.

Lemma drag_and_release_fires_once_witness :
  noActiveBall emptyLevel = true /\
  shots (handle (math := approxMath) wideW wideH Up
           (handle (math := approxMath) wideW wideH (Move {| px := 40; py := 650 |})
              (handle (math := approxMath) wideW wideH (Down origin) emptyLevel)))
  = (shots emptyLevel + 1)%Z.
Proof.
  split; [reflexivity|].
  exact (proj1 (proj2 (proj2
    (drag_and_release_fires_once (math := approxMath) wideW wideH origin
       {| px := 40; py := 650 |} emptyLevel eq_refl)))).
Defined.

Lemma stray_events_ignored_witness :
  aiming emptyLevel = false /\
  onUp (math := approxMath) wideW wideH emptyLevel = emptyLevel.
Proof.
  split; [reflexivity|].
  exact (proj2 (proj1 (stray_events_ignored (math := approxMath) wideW wideH
                         origin emptyLevel) eq_refl)).
Defined.

Lemma inert_until_next_shot_witness :
  noActiveBall emptyLevel = true /\
  (noActiveBall (handle (math := approxMath) wideW wideH (Tick 16) emptyLevel)
     = true \/ (Tick 16 = Up /\ aiming emptyLevel = true)).
Proof.
  split; [reflexivity|].
  exact (inert_until_next_shot (math := approxMath) wideW wideH (Tick 16)
           emptyLevel eq_refl).
Defined.

(** ** The step *)

Lemma Qabs_scaled (v k : Q) : 0 <= k -> k <= 1 -> Qabs (v * k) <= Qabs v.
Proof.
  intros Hk0 Hk1. rewrite Qabs_Qmult, (Qabs_pos k Hk0).
  setoid_replace (Qabs v) with (Qabs v * 1) at 2 by ring.
  rewrite !(Qmult_comm (Qabs v)).
  apply Qmult_le_compat_r; [exact Hk1|apply Qabs_nonneg].
Qed.

Lemma Qabs_flipped (v k : Q) : 0 <= k -> k <= 1 -> Qabs (- v * k) <= Qabs v.
Proof.
  intros Hk0 Hk1. rewrite <- (Qabs_opp v). apply Qabs_scaled; assumption.
Qed.

Section StepFacts.

Context {math : MathLib}.
Variables W H : Q.

Lemma bounce_slows bl c :
  Qabs (Ball.vx (bounce bl c)) <= Qabs (Ball.vx bl) /\
  Qabs (Ball.vy (bounce bl c)) <= Qabs (Ball.vy bl).
Proof.
  unfold bounce. cbn [Ball.vx Ball.vy].
  destruct (_ <? _); split.
  - eapply Qle_trans; [apply Qabs_scaled; discriminate|].
    apply Qabs_flipped; discriminate.
  - apply Qabs_scaled; discriminate.
  - apply Qabs_scaled; discriminate.
  - eapply Qle_trans; [apply Qabs_scaled; discriminate|].
    apply Qabs_flipped; discriminate.
Qed.

(** X12: neither the ground nor a block ever speeds the projectile up:
    after the ground phase and after the block loop each velocity
    component is at most as large, in absolute value, as before. *)
Theorem collisions_never_speed_up (b : Ball.t) (bs : list Block.t) :
  Qabs (Ball.vx (groundCollision H b)) <= Qabs (Ball.vx b) /\
  Qabs (Ball.vy (groundCollision H b)) <= Qabs (Ball.vy b) /\
  Qabs (Ball.vx (fst (collideBlocks b bs))) <= Qabs (Ball.vx b) /\
  Qabs (Ball.vy (fst (collideBlocks b bs))) <= Qabs (Ball.vy b).
Proof.
  split; [|split].
  - unfold groundCollision. destruct (_ >? _); cbn [Ball.vx];
      [apply Qabs_scaled; discriminate|apply Qle_refl].
  - unfold groundCollision. destruct (_ >? _); cbn [Ball.vy];
      [apply Qabs_flipped; discriminate|apply Qle_refl].
  - induction bs as [|c bs IH]; [split; apply Qle_refl|].
    rewrite collideBlocks_cons.
    destruct (negb (Block.alive c) || negb (hits b c)); cbn [fst];
      [exact IH|apply bounce_slows].
Qed.

(** X13: a live projectile that the ground phase stops lies on the
    ground ([y + r = groundY]) with a vertical speed below 120 and a
    horizontal speed below 90; the ground phase never stops a
    projectile that has not sunk below the ground. *)
Theorem rest_only_on_ground (b : Ball.t) :
  Ball.alive b = true -> Ball.alive (groundCollision H b) = false ->
  groundY H < Ball.y b + Ball.r b /\
  Ball.y (groundCollision H b) + Ball.r (groundCollision H b) == groundY H /\
  Qabs (Ball.vy (groundCollision H b)) < 120 /\
  Qabs (Ball.vx (groundCollision H b)) < 90.
Proof.
  intros Ha Hd. unfold groundCollision in *.
  destruct (Ball.y b + Ball.r b >? groundY H) eqn:E; [|congruence].
  apply Qgtb_gt in E. cbn [Ball.alive Ball.x Ball.y Ball.r Ball.vx Ball.vy] in *.
  split; [exact E|]. split; [ring|].
  destruct (Qabs (- Ball.vy b * RESTITUTION) <? 120) eqn:E1;
    destruct (Qabs (Ball.vx b * FRICTION) <? 90) eqn:E2;
    cbn [andb] in Hd; try congruence.
  apply Qltb_lt in E1, E2. split; assumption.
Qed.

Lemma aliveCount_cons c bs :
  aliveCount (c :: bs) =
  ((if Block.alive c then 1 else 0) + aliveCount bs)%Z.
Proof.
  unfold aliveCount. simpl. destruct (Block.alive c); simpl length; lia.
Qed.

(** X14: the block loop destroys at most one block in a step and never
    brings one back: the number of live blocks after the loop is the
    number before, or one less. *)
Theorem at_most_one_block_destroyed (b : Ball.t) (bs : list Block.t) :
  aliveCount (snd (collideBlocks b bs)) = aliveCount bs \/
  aliveCount (snd (collideBlocks b bs)) = (aliveCount bs - 1)%Z.
Proof.
  induction bs as [|c bs IH]; [left; reflexivity|].
  rewrite collideBlocks_cons.
  destruct (negb (Block.alive c) || negb (hits b c)) eqn:E; cbn [snd].
  - rewrite !aliveCount_cons. destruct IH as [-> | ->]; [left|right]; lia.
  - apply orb_false_iff in E. destruct E as [Ha _].
    apply negb_false_iff in Ha.
    rewrite !aliveCount_cons, Ha. unfold damageBlock. cbn [Block.alive].
    rewrite Ha. destruct (_ <=? 0); [right|left]; lia.
Qed.

(** X15: with a positive block total, the level is won exactly when at
    most 15 percent of the blocks are alive, that is when
    [20 * alive <= 3 * total]; with a total of zero it is always won. *)
Theorem wins_at_85_percent (st : state) :
  (0 <= totalBlocks st)%Z ->
  (wins st = true <->
   totalBlocks st = 0%Z \/
   (20 * aliveCount (blocks st) <= 3 * totalBlocks st)%Z).
Proof.
  intros Hnn. unfold wins, destroyedPct, Qgeb.
  destruct (totalBlocks st =? 0)%Z eqn:E.
  - apply Z.eqb_eq in E. split; [tauto|reflexivity].
  - apply Z.eqb_neq in E. rewrite Qle_bool_iff.
    assert (Hpos : 0 < inject_Z (totalBlocks st)).
    { change 0 with (inject_Z 0). rewrite <- Zlt_Qlt. lia. }
    set (a := aliveCount (blocks st)) in *. set (t := totalBlocks st) in *.
    assert (Hiff : 0.85 <= 1 - a / t <-> 20 * inject_Z a <= 3 * inject_Z t).
    { split; intros Hle.
      - assert (Hm : a / t * t <= 0.15 * t)
          by (apply Qmult_le_compat_r; lra).
        assert (Ha : a / t * t == a) by (field; lra).
        lra.
      - assert (Hm : a / t <= 0.15).
        { apply Qle_shift_div_r; [exact Hpos|]. lra. }
        lra. }
    rewrite Hiff.
    change 20 with (inject_Z 20). change 3 with (inject_Z 3).
    rewrite <- !inject_Z_mult, <- Zle_Qle. split; [tauto|].
    intros [Hz|Hle]; [contradiction|exact Hle].
Qed.

(** X16: whatever the two time stamps, [tick] steps the simulation by a
    time between 0 and 1/30 and remembers the new time stamp; a time
    stamp that does not advance gives a step of zero. *)
Theorem tick_step_bounded (now : Q) (st : state) :
  0 <= clamp ((now - last st) / 1000) 0 DT_MAX /\
  clamp ((now - last st) / 1000) 0 DT_MAX <= 1 / 30 /\
  (now <= last st -> clamp ((now - last st) / 1000) 0 DT_MAX == 0) /\
  tick W H now st =
    update W H (clamp ((now - last st) / 1000) 0 DT_MAX) (set_last now st) /\
  last (tick W H now st) = now.
Proof.
  destruct (clamp_cases ((now - last st) / 1000) 0 DT_MAX) as [Hb _].
  specialize (Hb ltac:(discriminate)).
  split; [apply Hb|]. split; [apply Hb|]. split; [|split; [reflexivity|]].
  - intros Hback. unfold clamp.
    assert (Hneg : (now - last st) / 1000 <= 0).
    { unfold Qdiv. setoid_replace 0 with (0 * / 1000) by ring.
      apply Qmult_le_compat_r; [lra|discriminate]. }
    rewrite Q.min_r by (eapply Qle_trans; [exact Hneg|discriminate]).
    apply Q.max_l. exact Hneg.
  - unfold tick, update. cbn [ball set_last].
    destruct (ball st) as [b|]; [|reflexivity].
    destruct (Ball.alive b); [|reflexivity].
    destruct (wins _); [|rewrite physics_eq; reflexivity].
    unfold advance. rewrite physics_eq. reflexivity.
Qed.

(** X17: an event never lowers the level index; only an animation frame
    can raise it, by one, and then the state holds the freshly made
    next level: no projectile, no shots, its blocks and power
    multiplier. *)
Theorem level_advances_by_one (e : event) (st : state) :
  level (handle W H e st) = level st \/
  ((exists now, e = Tick now) /\
   level (handle W H e st) = (level st + 1)%Z /\
   ball (handle W H e st) = None /\
   shots (handle W H e st) = 0%Z /\
   blocks (handle W H e st) = genBlocks W H (level st + 1) /\
   totalBlocks (handle W H e st) =
     Z.of_nat (length (genBlocks W H (level st + 1))) /\
   powerMult (handle W H e st) = 1.0 + ((level st + 1)%Z - 1) * 0.08).
Proof.
  destruct e as [p|p| | |now]; cbn [handle].
  - left. reflexivity.
  - left. unfold onMove. destruct (negb (aiming st)); reflexivity.
  - left. unfold onUp. destruct (negb (aiming st)); [reflexivity|].
    destruct (noActiveBall _); reflexivity.
  - left. reflexivity.
  - unfold tick, update. cbn [ball set_last].
    destruct (ball st) as [b|]; [|left; reflexivity].
    destruct (Ball.alive b); [|left; reflexivity].
    destruct (wins _).
    + right. split; [exists now; reflexivity|].
      unfold advance. rewrite physics_eq. repeat split.
    + left. rewrite physics_eq. reflexivity.
Qed.

End StepFacts.

Lemma rest_only_on_ground_witness :
  Ball.alive (Ball.mk 300 590 50 100 14.25 120 true 0) = true /\
  Ball.alive (groundCollision wideH (Ball.mk 300 590 50 100 14.25 120 true 0))
    = false /\
  Qabs (Ball.vx (groundCollision wideH (Ball.mk 300 590 50 100 14.25 120 true 0)))
    < 90.
Proof.
  assert (Hd : Ball.alive
                 (groundCollision wideH (Ball.mk 300 590 50 100 14.25 120 true 0))
               = false) by (vm_compute; reflexivity).
  split; [reflexivity|]. split; [exact Hd|].
  exact (proj2 (proj2 (proj2
    (rest_only_on_ground wideH (Ball.mk 300 590 50 100 14.25 120 true 0)
       eq_refl Hd)))).
Defined.

Lemma wins_at_85_percent_witness :
  (0 <= totalBlocks twoBlocks)%Z /\
  (wins twoBlocks = true <->
   totalBlocks twoBlocks = 0%Z \/
   (20 * aliveCount (blocks twoBlocks) <= 3 * totalBlocks twoBlocks)%Z).
Proof.
  assert (Hnn : (0 <= totalBlocks twoBlocks)%Z) by (cbn; lia).
  split; [exact Hnn|]. exact (wins_at_85_percent twoBlocks Hnn).
Defined.

Lemma tick_step_bounded_witness :
  5 <= last (set_last 10 emptyLevel) /\
  clamp ((5 - last (set_last 10 emptyLevel)) / 1000) 0 DT_MAX == 0.
Proof.
  assert (Hback : 5 <= last (set_last 10 emptyLevel)) by discriminate.
  split; [exact Hback|].
  exact (proj1 (proj2 (proj2
    (tick_step_bounded (math := approxMath) wideW wideH 5
       (set_last 10 emptyLevel)))) Hback).
Defined.

(** ** The books of the reachable states *)

Section Bookkeeping.

Context {math : MathLib}.
Variables W H : Q.

Lemma collideBlocks_Forall_frame (P : Block.t -> Prop) bl bs :
  (forall c c', sameButHp c' c -> P c -> P c') ->
  Forall P bs -> Forall P (snd (collideBlocks bl bs)).
Proof.
  intros Hframe. induction bs as [|c bs IH]; intros Hall; [constructor|].
  inversion Hall as [|? ? Hc Hbs]; subst.
  rewrite collideBlocks_cons.
  destruct (negb (Block.alive c) || negb (hits bl c)); cbn [snd].
  - constructor; [exact Hc|apply IH; exact Hbs].
  - constructor; [|exact Hbs].
    apply (Hframe c); [apply damageBlock_frame|exact Hc].
Qed.

Lemma Books_makeLevel n st :
  (1 <= n)%Z -> level st = n -> Books H (makeLevel W H n st).
Proof.
  intros Hn Hl. unfold Books.
  cbn [makeLevel level shots powerMult totalBlocks blocks].
  cbn [ball]. rewrite Hl.
  split; [lia|]. split; [lia|]. split; [reflexivity|]. split; [reflexivity|].
  split; [|intros b Hb; discriminate].
  pose proof (genBlocks_fresh W H n) as Hf.
  pose proof (genBlocks_wellPlaced W H n) as Hw.
  rewrite Forall_forall in *. intros c Hc.
  split; [apply Hw; exact Hc|apply Hf; exact Hc].
Qed.

Lemma moveBall_radius dt b : Ball.r (moveBall W H dt b) = Ball.r b.
Proof.
  unfold moveBall, outOfBounds, groundCollision.
  destruct (isOutOfBounds _ _ _); destruct (_ >? _); reflexivity.
Qed.

Lemma Books_physics dt b st :
  Books H st -> ball st = Some b -> Books H (physics W H dt b st).
Proof.
  intros [Hl [Hs [Hp [Ht [Hbs Hball]]]]] Hb. unfold Books.
  rewrite physics_eq.
  cbn [set_physics level shots powerMult totalBlocks blocks ball].
  split; [exact Hl|]. split; [exact Hs|]. split; [exact Hp|].
  split; [rewrite collideBlocks_length; exact Ht|]. split.
  - apply collideBlocks_Forall_frame; [|exact Hbs].
    intros c c' [Hx [Hy [Hw [Hh [Hm Hmat]]]]] [Hwp Hmax].
    unfold wellPlaced in *. rewrite Hy, Hw, Hh, Hm, Hmat. tauto.
  - intros b' Hb'. injection Hb' as <-.
    destruct (collideBlocks_ball_frame (moveBall W H dt b) (blocks st))
      as [_ [_ [-> [-> _]]]].
    rewrite moveBall_radius, moveBall_damage. apply Hball. exact Hb.
Qed.

Lemma Books_powerMult st : Books H st -> 1 <= powerMult st.
Proof.
  intros [Hl [_ [Hp _]]]. rewrite Hp.
  rewrite Zle_Qle in Hl. change (inject_Z 1) with 1 in Hl. lra.
Qed.

Lemma Books_handle e st : Books H st -> Books H (handle W H e st).
Proof.
  intros HB. destruct e as [p|p| | |now]; cbn [handle].
  - exact HB.
  - unfold onMove. destruct (negb (aiming st)); exact HB.
  - unfold onUp. destruct (negb (aiming st)); [exact HB|].
    destruct (noActiveBall _); [|exact HB].
    pose proof (Books_powerMult st HB) as Hpm.
    destruct HB as [Hl [Hs [Hp [Ht [Hbs _]]]]]. unfold Books.
    split; [exact Hl|]. split; [cbn; lia|]. split; [exact Hp|].
    split; [exact Ht|]. split; [exact Hbs|].
    intros b Hb.
    apply fire_projectile in Hb; [|cbn; lra].
    cbn [powerMult set_aim fire] in *. tauto.
  - apply Books_makeLevel; [apply HB|reflexivity].
  - unfold tick, update. cbn [ball set_last].
    destruct (ball st) as [b|] eqn:Hb; [|exact HB].
    destruct (Ball.alive b); [|exact HB].
    destruct (wins _).
    + unfold advance. rewrite physics_eq. cbn [ball set_physics].
      apply Books_makeLevel; cbn; [destruct HB; lia|reflexivity].
    + apply Books_physics; [exact HB|exact Hb].
Qed.

Lemma reachable_Books st : reachable W H st -> Books H st.
Proof.
  induction 1 as [t0|st e _ IH].
  - unfold boot. apply Books_makeLevel; [cbn; lia|reflexivity].
  - apply Books_handle. exact IH.
Qed.

Lemma aliveCount_range bs :
  (0 <= aliveCount bs <= Z.of_nat (length bs))%Z.
Proof.
  unfold aliveCount. pose proof (filter_length_le Block.alive bs). lia.
Qed.

Lemma aliveCount_all bs :
  Forall (fun c => Block.alive c = true) bs ->
  aliveCount bs = Z.of_nat (length bs).
Proof.
  intros Hall. unfold aliveCount. f_equal.
  induction Hall as [|c l Hc _ IH]; [reflexivity|].
  simpl. rewrite Hc. simpl. f_equal. exact IH.
Qed.

(** X18: in every reachable state the level index is at least 1, the
    shot count is not negative, the power multiplier is
    [1 + (level - 1) * 0.08], the block total counts the blocks of the
    level, dead ones included, every block still has a positive size,
    lies at least 2 above the ground and carries the full hit points of
    its material as [maxHp], and a projectile has a radius between 14
    and 22 and a damage potential between 120 and 344 times the power
    multiplier, so at least 120. *)
Theorem reachable_bookkeeping (st : state) :
  reachable W H st ->
  (1 <= level st)%Z /\
  (0 <= shots st)%Z /\
  powerMult st = 1.0 + (level st - 1) * 0.08 /\
  totalBlocks st = Z.of_nat (length (blocks st)) /\
  (0 <= aliveCount (blocks st) <= totalBlocks st)%Z /\
  Forall (fun c => 0 < Block.w c /\ 0 < Block.h c /\
                   Block.y c + Block.h c <= groundY H - 2 /\
                   Block.maxHp c = hp (materials (Block.mat c)))
         (blocks st) /\
  (forall b, ball st = Some b ->
     14 <= Ball.r b /\ Ball.r b <= 22 /\
     120 * powerMult st <= Ball.damage b /\
     Ball.damage b <= 344 * powerMult st /\
     120 <= Ball.damage b).
Proof.
  intros Hreach.
  pose proof (Books_powerMult st (reachable_Books st Hreach)) as Hpm.
  destruct (reachable_Books st Hreach) as [Hl [Hs [Hp [Ht [Hbs Hball]]]]].
  repeat (split; [assumption|]).
  split; [rewrite Ht; apply aliveCount_range|]. split.
  - eapply Forall_impl; [|exact Hbs].
    intros c [[Hw [_ [Hh [_ Hy]]]] Hmax]. tauto.
  - intros b Hb. destruct (Hball b Hb) as [H1 [H2 [H3 H4]]].
    repeat split; try assumption. lra.
Qed.

Lemma round_percent (a t : Z) :
  (0 <= a <= t)%Z -> (0 < t)%Z ->
  (0 <= round (100 * (1 - a / t)) <= 100)%Z.
Proof.
  intros Ha Ht. unfold round.
  assert (Htq : 0 < inject_Z t).
  { change 0 with (inject_Z 0). rewrite <- Zlt_Qlt. exact Ht. }
  destruct Ha as [Ha0 Hat]. rewrite Zle_Qle in Ha0, Hat.
  change (inject_Z 0) with 0 in Ha0.
  assert (Hq0 : 0 <= a / t).
  { apply Qle_shift_div_l; [exact Htq|]. lra. }
  assert (Hq1 : a / t <= 1).
  { apply Qle_shift_div_r; [exact Htq|]. lra. }
  split.
  - apply Z.le_trans with (Qfloor 0); [discriminate|].
    apply Qfloor_resp_le. lra.
  - apply Z.le_trans with (Qfloor 100.5); [|discriminate].
    apply Qfloor_resp_le. lra.
Qed.

(** X19: in every reachable state [syncHud] shows the level, the shot
    count and the power multiplier of the state, a destroyed percentage
    between 0 and 100, and 0 percent while every block is alive. *)
Theorem hud_percentage (st : state) :
  reachable W H st ->
  elLevel (syncHud st) = level st /\
  elShots (syncHud st) = shots st /\
  elPower (syncHud st) = powerMult st /\
  (0 <= elDestroyed (syncHud st) <= 100)%Z /\
  (Forall (fun c => Block.alive c = true) (blocks st) ->
   elDestroyed (syncHud st) = 0%Z).
Proof.
  intros Hreach.
  destruct (reachable_Books st Hreach) as [_ [_ [_ [Ht _]]]].
  pose proof (aliveCount_range (blocks st)) as Hrange.
  unfold syncHud. cbn [elLevel elShots elPower elDestroyed].
  repeat (split; [reflexivity|]).
  destruct (totalBlocks st =? 0)%Z eqn:E.
  - split; [lia|reflexivity].
  - apply Z.eqb_neq in E. split.
    + apply round_percent; lia.
    + intros Hall. rewrite (aliveCount_all _ Hall), <- Ht.
      assert (Hq : 100 * (1 - inject_Z (totalBlocks st) / totalBlocks st) == 0).
      { field. intros Hz. apply E.
        change 0 with (inject_Z 0) in Hz. apply inject_Z_injective. exact Hz. }
      unfold round. rewrite Hq. reflexivity.
Qed.

(** X21: in every reachable state [draw] shows the live blocks, in their
    order, and the hit point bar of each is the share [hp / maxHp] of
    the block's width, more than nothing and at most the width. *)
Theorem hp_bars_proportional (st : state) :
  reachable W H st ->
  map fst (blockBars (draw W H st)) = filter Block.alive (blocks st) /\
  Forall (fun bar =>
            snd bar == Block.w (fst bar) * (Block.hp (fst bar) / Block.maxHp (fst bar))
            /\ 0 < snd bar /\ snd bar <= Block.w (fst bar))
         (blockBars (draw W H st)).
Proof.
  intros Hreach.
  destruct (reachable_Books st Hreach) as [_ [_ [_ [_ [Hbs _]]]]].
  destruct (reachable_Inv W H st Hreach) as [_ [_ [Hok _]]].
  cbn [draw blockBars]. split.
  - rewrite map_map. cbn [fst]. apply map_id.
  - apply Forall_forall. intros bar Hbar.
    apply in_map_iff in Hbar. destruct Hbar as [c [<- Hc]].
    apply filter_In in Hc. destruct Hc as [Hin Halive].
    rewrite Forall_forall in Hbs, Hok.
    destruct (Hbs c Hin) as [[Hw _] _].
    destruct (Hok c Hin) as [Hmax Hiff].
    assert (Hhp : 0 < Block.hp c) by (apply Hiff; exact Halive).
    assert (Hm : 0 < Block.maxHp c) by lra.
    assert (Hq0 : 0 < Block.hp c / Block.maxHp c).
    { apply Qlt_shift_div_l; [exact Hm|]. lra. }
    assert (Hq1 : Block.hp c / Block.maxHp c <= 1).
    { apply Qle_shift_div_r; [exact Hm|]. lra. }
    cbn [fst snd].
    destruct (clamp_cases (Block.hp c / Block.maxHp c) 0 1) as [_ [Hid _]].
    specialize (Hid (Qlt_le_weak _ _ Hq0) Hq1).
    rewrite Hid. split; [reflexivity|]. split.
    + apply Qmult_lt_0_compat; assumption.
    + setoid_replace (Block.w c) with (Block.w c * 1) at 2 by ring.
      rewrite !(Qmult_comm (Block.w c)).
      apply Qmult_le_compat_r; [exact Hq1|lra].
Qed.

(** X20: whatever the state and whatever [Math.atan2] and [Math.hypot]
    answer, [draw] turns the barrel to an angle between -2.5 and -0.05,
    never shows the aim line together with the projectile, and draws
    the aim line with an opacity between 0.25 and 0.75 and a pull
    between 0 and 160. *)
Theorem draw_within_limits (st : state) :
  -2.5 <= barrelAngle (draw W H st) /\ barrelAngle (draw W H st) <= -0.05 /\
  (aimLine (draw W H st) = None \/ ballShown (draw W H st) = None) /\
  (forall a, aimLine (draw W H st) = Some a ->
     aiming st = true /\
     0.25 <= strokeAlpha a /\ strokeAlpha a <= 0.75 /\
     (0 <= pull a <= 160)%Z /\ power a = powerMult st).
Proof.
  cbn [draw barrelAngle aimLine ballShown].
  split; [|split; [|split]].
  - destruct (aiming st); [|discriminate].
    apply (clamp_cases _ (-2.5) (-0.05)). discriminate.
  - destruct (aiming st); [|discriminate].
    apply (clamp_cases _ (-2.5) (-0.05)). discriminate.
  - unfold noActiveBall. destruct (aiming st); [|left; reflexivity].
    destruct (ball st) as [b|]; [|right; reflexivity].
    destruct (Ball.alive b); [left|right]; reflexivity.
  - intros a Ha.
    destruct (aiming st); [|discriminate]. cbn [andb] in Ha.
    destruct (noActiveBall st); [|discriminate].
    injection Ha as <-. cbn [strokeAlpha pull power].
    match goal with |- context [clamp ?v 0 160] =>
      destruct (clamp_cases v 0 160) as [Hd _];
      specialize (Hd ltac:(discriminate));
      set (drag := clamp v 0 160) in *
    end.
    assert (Hq : 0 <= drag / 320 /\ drag / 320 <= 0.5).
    { split; [apply Qle_shift_div_l|apply Qle_shift_div_r];
        try reflexivity; lra. }
    split; [reflexivity|]. split; [lra|]. split; [lra|].
    split; [|reflexivity]. unfold round. split.
    + apply Z.le_trans with (Qfloor 0); [discriminate|].
      apply Qfloor_resp_le. lra.
    + apply Z.le_trans with (Qfloor 160.5); [|discriminate].
      apply Qfloor_resp_le. lra.
Qed.

End Bookkeeping.

(** ** Canvas setup *)

(** X22: [resize] scales the drawing by a factor between 1 and 3, which
    is 1 where the device pixel ratio is missing, zero or below 1; the
    canvas of a display of non-negative size is at least as large as
    the display, rounded down, and at most three times as large. *)
Theorem resize_scale_bounded (innerWidth innerHeight : Q) (ratio : option Q) :
  0 <= innerWidth -> 0 <= innerHeight ->
  1 <= scale (resize innerWidth innerHeight ratio) /\
  scale (resize innerWidth innerHeight ratio) <= 3 /\
  ((ratio = None \/ exists d, ratio = Some d /\ d <= 1) ->
   scale (resize innerWidth innerHeight ratio) == 1 /\
   width (resize innerWidth innerHeight ratio) = floor innerWidth /\
   height (resize innerWidth innerHeight ratio) = floor innerHeight) /\
  (floor innerWidth <= width (resize innerWidth innerHeight ratio)
     <= floor (innerWidth * 3))%Z /\
  (floor innerHeight <= height (resize innerWidth innerHeight ratio)
     <= floor (innerHeight * 3))%Z.
Proof.
  intros Hw Hh. unfold resize. cbn [scale width height].
  set (rt := match ratio with
             | Some d => if Qeq_bool d 0 then 1 else d
             | None => 1
             end).
  assert (Hs : 1 <= Qmax 1 (Qmin 3 rt) /\ Qmax 1 (Qmin 3 rt) <= 3).
  { split; [apply Q.le_max_l|].
    apply Q.max_lub; [discriminate|apply Q.le_min_l]. }
  set (dpr := Qmax 1 (Qmin 3 rt)) in *. destruct Hs as [Hs1 Hs3].
  assert (Hfloor : forall v, 0 <= v ->
            (floor v <= floor (v * dpr) <= floor (v * 3))%Z).
  { intros v Hv. split; apply Qfloor_resp_le.
    - setoid_replace v with (v * 1) at 1 by ring.
      rewrite !(Qmult_comm v). apply Qmult_le_compat_r; assumption.
    - rewrite !(Qmult_comm v). apply Qmult_le_compat_r; assumption. }
  split; [exact Hs1|]. split; [exact Hs3|].
  split; [|split; apply Hfloor; assumption].
  intros Hlow.
  assert (Hrt : rt <= 1).
  { unfold rt. destruct Hlow as [->|[d [-> Hd]]]; [apply Qle_refl|].
    destruct (Qeq_bool d 0); [apply Qle_refl|exact Hd]. }
  assert (Hone : dpr == 1).
  { unfold dpr. apply Q.max_l.
    eapply Qle_trans; [apply Q.le_min_r|exact Hrt]. }
  split; [exact Hone|].
  unfold floor. rewrite !Hone, !Qmult_1_r. split; reflexivity.
Qed.

(** ** Hits and the end of a flight *)

Section Flight.

Context {math : MathLib}.
Variables W H : Q.

(** X23: when the projectile of a reachable state hits a block, the
    block loses at least 42 hit points (0.35 of the least damage
    potential, 120) and at most 1.55 times the projectile's damage
    potential. *)
Theorem hit_costs_at_least_42 (st : state) (dt : Q) (b : Ball.t) (i : nat)
    (c : Block.t) :
  reachable W H st ->
  ball st = Some b -> Ball.alive b = true ->
  isFirstHit (moveBall W H dt b) (blocks st) i c ->
  exists c',
    nth_error (blocks (physics W H dt b st)) i = Some c' /\
    Block.hp c' <= Block.hp c - 42 /\
    Block.hp c - 1.55 * Ball.damage b <= Block.hp c'.
Proof.
  intros Hreach Hb Ha Hfirst.
  pose proof (reachable_Books W H st Hreach) as HB.
  pose proof (Books_powerMult H st HB) as Hpm.
  destruct HB as [_ [_ [_ [_ [_ Hball]]]]].
  destruct (Hball b Hb) as [_ [_ [Hlo _]]].
  exists (damageBlock (moveBall W H dt b) c). split.
  - rewrite physics_eq. cbn [set_physics blocks].
    rewrite (collideBlocks_first_hit _ _ i c Hfirst). cbn [snd].
    apply nth_error_replace with (a := c). apply Hfirst.
  - unfold damageBlock, dmg, dmgAt. cbn [Block.hp].
    rewrite moveBall_damage.
    destruct (clamp_cases (impactSpeed (moveBall W H dt b) / 1200) 0.0 1.2)
      as [Hc _].
    specialize (Hc ltac:(discriminate)).
    set (k := clamp (impactSpeed (moveBall W H dt b) / 1200) 0.0 1.2) in *.
    assert (Hd : 120 <= Ball.damage b) by lra.
    assert (H1 : Ball.damage b * 0.35 <= Ball.damage b * (0.35 + k)).
    { rewrite !(Qmult_comm (Ball.damage b)).
      apply Qmult_le_compat_r; lra. }
    assert (H2 : Ball.damage b * (0.35 + k) <= Ball.damage b * 1.55).
    { rewrite !(Qmult_comm (Ball.damage b)).
      apply Qmult_le_compat_r; lra. }
    split; lra.
Qed.

(** X24: a step that starts with a live projectile leaves no live
    projectile exactly when the level is won in that step, or the moved
    projectile is out of bounds, or the ground phase has put it to
    rest; otherwise the projectile flies on. *)
Theorem flight_ends_three_ways (st : state) (dt : Q) (b : Ball.t) :
  ball st = Some b -> Ball.alive b = true ->
  (noActiveBall (update W H dt st) = true <->
   wins (physics W H dt b st) = true \/
   isOutOfBounds W H (groundCollision H (integrate dt b)) = true \/
   Ball.alive (groundCollision H (integrate dt b)) = false).
Proof.
  intros Hb Ha. rewrite (update_flying W H dt st b Hb Ha).
  destruct (wins (physics W H dt b st)).
  - split; [tauto|]. intros _. unfold noActiveBall.
    destruct (advance_fresh W H (physics W H dt b st)) as [-> _]. reflexivity.
  - destruct (physics_ball_frame W H dt b st) as [bl [Hbl Hframe]].
    unfold noActiveBall. rewrite Hbl.
    destruct Hframe as [_ [_ [_ [_ [-> _]]]]].
    unfold moveBall, outOfBounds.
    destruct (isOutOfBounds W H (groundCollision H (integrate dt b)));
      cbn [Ball.alive]; [split; [tauto|reflexivity]|].
    rewrite negb_true_iff. split; [tauto|].
    intros [Hw|[Ho|Hr]]; [discriminate|discriminate|exact Hr].
Qed.

End Flight.

(** ** The further properties on concrete inputs *)

Lemma hit_costs_at_least_42_witness :
  reachable (math := approxMath) narrowW narrowH narrowShot /\
  ball narrowShot = Some narrowBall /\
  Ball.alive narrowBall = true /\
  isFirstHit
    (moveBall (math := approxMath) narrowW narrowH (16 / 1000) narrowBall)
    (blocks narrowShot) 17 narrowBlock /\
  exists c',
    nth_error
      (blocks (physics (math := approxMath) narrowW narrowH (16 / 1000)
                 narrowBall narrowShot)) 17 = Some c' /\
    Block.hp c' <= Block.hp narrowBlock - 42.
Proof.
  assert (Hr : reachable (math := approxMath) narrowW narrowH narrowShot)
    by apply run_reachable.
  assert (Hb : ball narrowShot = Some narrowBall) by (vm_compute; reflexivity).
  assert (Ha : Ball.alive narrowBall = true) by (vm_compute; reflexivity).
  assert (Hf : isFirstHit
                 (moveBall (math := approxMath) narrowW narrowH (16 / 1000)
                    narrowBall)
                 (blocks narrowShot) 17 narrowBlock).
  { apply firstHit_isFirstHit; vm_compute; reflexivity. }
  repeat (split; [assumption|]).
  destruct (hit_costs_at_least_42 (math := approxMath) narrowW narrowH
              narrowShot (16 / 1000) narrowBall 17 narrowBlock Hr Hb Ha Hf)
    as [c' [Hc [Hle _]]].
  exists c'. split; assumption.
Defined.

Lemma flight_ends_three_ways_witness :
  ball twoBlocks = Some ballFalling /\ Ball.alive ballFalling = true /\
  (noActiveBall (update (math := approxMath) wideW wideH (1 / 30) twoBlocks)
     = true <->
   wins (physics (math := approxMath) wideW wideH (1 / 30) ballFalling twoBlocks)
     = true \/
   isOutOfBounds wideW wideH
     (groundCollision wideH (integrate (math := approxMath) (1 / 30) ballFalling))
     = true \/
   Ball.alive
     (groundCollision wideH (integrate (math := approxMath) (1 / 30) ballFalling))
     = false).
Proof.
  split; [reflexivity|]. split; [reflexivity|].
  exact (flight_ends_three_ways (math := approxMath) wideW wideH twoBlocks
           (1 / 30) ballFalling eq_refl eq_refl).
Defined.

Lemma reachable_bookkeeping_witness :
  reachable (math := approxMath) narrowW narrowH narrowHit /\
  totalBlocks narrowHit = Z.of_nat (length (blocks narrowHit)).
Proof.
  assert (Hr : reachable (math := approxMath) narrowW narrowH narrowHit)
    by apply run_reachable.
  split; [exact Hr|].
  exact (proj1 (proj2 (proj2 (proj2
    (reachable_bookkeeping (math := approxMath) narrowW narrowH _ Hr))))).
Defined.

Lemma hud_percentage_witness :
  reachable (math := approxMath) narrowW narrowH narrowHit /\
  (0 <= elDestroyed (syncHud narrowHit) <= 100)%Z.
Proof.
  assert (Hr : reachable (math := approxMath) narrowW narrowH narrowHit)
    by apply run_reachable.
  split; [exact Hr|].
  exact (proj1 (proj2 (proj2 (proj2
    (hud_percentage (math := approxMath) narrowW narrowH _ Hr))))).
Defined.

Lemma hp_bars_proportional_witness :
  reachable (math := approxMath) narrowW narrowH narrowHit /\
  map fst (blockBars (draw (math := approxMath) narrowW narrowH narrowHit))
    = filter Block.alive (blocks narrowHit).
Proof.
  assert (Hr : reachable (math := approxMath) narrowW narrowH narrowHit)
    by apply run_reachable.
  split; [exact Hr|].
  exact (proj1 (hp_bars_proportional (math := approxMath) narrowW narrowH _ Hr)).
Defined.

Lemma draw_within_limits_witness :
  exists a,
    aimLine (draw (math := approxMath) wideW wideH
               (set_aim true origin {| px := 40; py := 650 |} emptyLevel))
      = Some a /\
    0.25 <= strokeAlpha a /\ strokeAlpha a <= 0.75.
Proof.
  eexists. split; [reflexivity|].
  destruct (proj2 (proj2 (proj2
    (draw_within_limits (math := approxMath) wideW wideH
       (set_aim true origin {| px := 40; py := 650 |} emptyLevel)))) _ eq_refl)
    as [_ [Hlo [Hhi _]]].
  split; assumption.
Defined.

Lemma resize_scale_bounded_witness :
  0 <= wideW /\ 0 <= wideH /\
  width (resize wideW wideH (Some 2)) = 2560%Z /\
  scale (resize wideW wideH (Some 2)) <= 3.
Proof.
  assert (Hw : 0 <= wideW) by discriminate.
  assert (Hh : 0 <= wideH) by discriminate.
  split; [exact Hw|]. split; [exact Hh|]. split; [reflexivity|].
  exact (proj1 (proj2 (resize_scale_bounded wideW wideH (Some 2) Hw Hh))).
Defined.
